(** * AMP Story ad preview: the preview widget and the build script

    A shallow embedding of [src/unnamed/part_001] (the preview widget
    [AmpStoryAdPreview] with its HTML patch functions) and of
    [src/bin/build.js] (the bundling script).

    A JavaScript string is a Rocq [string]: each character stands for one
    code unit (the code units below 256).  The browser and Node APIs the
    code calls (the HTML parser behind [innerHTML], the bundler, the
    minifier) are parameters of the sections that use them. *)

From Stdlib Require Import Ascii Arith Lia Bool.
From stdpp Require Import gmap strings.

Local Arguments String.append : simpl nomatch.

(** ** JavaScript strings *)

Module JsString.

(** [strip_prefix p s] is [Some rest] when [s = p ++ rest]. *)
Fixpoint strip_prefix (p s : string) : option string :=
  match p with
  | EmptyString => Some s
  | String a p' =>
      match s with
      | String b s' => if Ascii.eqb a b then strip_prefix p' s' else None
      | EmptyString => None
      end
  end.

(** The first occurrence of [pat] in [s], as what stands before and after
    it ([String.prototype.indexOf] from position 0). *)
Fixpoint indexOf_split (pat s : string) : option (string * string) :=
  match strip_prefix pat s with
  | Some rest => Some (EmptyString, rest)
  | None =>
      match s with
      | EmptyString => None
      | String c s' =>
          match indexOf_split pat s' with
          | Some (before, after) => Some (String c before, after)
          | None => None
          end
      end
  end.

Definition includes (s pat : string) : bool :=
  match indexOf_split pat s with Some _ => true | None => false end.

Definition digit_of (c : ascii) : option nat :=
  let n := nat_of_ascii c in
  if (48 <=? n) && (n <=? 57) then Some (n - 48) else None.

(** The [n]th capture, counted from 1, when there is one. *)
Definition capture (caps : list string) (n : nat) : option string :=
  match n with
  | 0 => None
  | S i => caps !! i
  end.

(** [GetSubstitution] of ECMA-262: the replacement text of
    [String.prototype.replace], with [$$], [$&], [$`], [$'] and the
    numbered captures [$n], [$nn] expanded; a [$] followed by anything else
    stands for itself. *)
Fixpoint getSubstitution (matched before after : string) (caps : list string)
    (t : string) : string :=
  match t with
  | EmptyString => EmptyString
  | String c t1 =>
      if negb (Ascii.eqb c "$") then
        String c (getSubstitution matched before after caps t1)
      else
        match t1 with
        | EmptyString => String c EmptyString
        | String d t2 =>
            if Ascii.eqb d "$" then
              String "$" (getSubstitution matched before after caps t2)
            else if Ascii.eqb d "&" then
              matched +:+ getSubstitution matched before after caps t2
            else if Ascii.eqb d "`" then
              before +:+ getSubstitution matched before after caps t2
            else if Ascii.eqb d "'" then
              after +:+ getSubstitution matched before after caps t2
            else
              let one :=
                match digit_of d with
                | Some n =>
                    match capture caps n with
                    | Some cap =>
                        cap +:+ getSubstitution matched before after caps t2
                    | None =>
                        String c (getSubstitution matched before after caps t1)
                    end
                | None =>
                    String c (getSubstitution matched before after caps t1)
                end in
              match t2 with
              | String e t3 =>
                  match digit_of d, digit_of e with
                  | Some n, Some m =>
                      match capture caps (10 * n + m) with
                      | Some cap =>
                          cap +:+ getSubstitution matched before after caps t3
                      | None => one
                      end
                  | _, _ => one
                  end
              | EmptyString => one
              end
        end
  end.

(** A replacement text in which some [$] stands directly before one of
    [$], [&], [`] and ['], the patterns [String.prototype.replace] expands
    whatever the pattern was. *)
Fixpoint hasReplacementPattern (t : string) : bool :=
  match t with
  | EmptyString => false
  | String c t1 =>
      (Ascii.eqb c "$" &&
       match t1 with
       | String d _ =>
           Ascii.eqb d "$" || Ascii.eqb d "&" || Ascii.eqb d "`" || Ascii.eqb d "'"
       | EmptyString => false
       end)
      || hasReplacementPattern t1
  end.

(** [s.replace(pat, repl)] with a string pattern: the first occurrence
    only, the replacement text expanded by [getSubstitution]; [s] itself
    when [pat] does not occur. *)
Definition replace (s pat repl : string) : string :=
  match indexOf_split pat s with
  | None => s
  | Some (before, after) =>
      before +:+ getSubstitution pat before after [] repl +:+ after
  end.

(** The character [c] does not occur in [s]. *)
Definition lacks (c : ascii) (s : string) : Prop :=
  forall x y, s <> x +:+ String c y.

(** [parts.join(sep)]. *)
Fixpoint join (sep : string) (parts : list string) : string :=
  match parts with
  | [] => EmptyString
  | [p] => p
  | p :: rest => p +:+ sep +:+ join sep rest
  end.

End JsString.

(** ** Regular expressions

    The two regular expressions of the widget use literals, character
    classes, [\s], greedy [*] and [+] and [?] over a single character, one
    alternation and one capturing group.  [regex] is their syntax and
    [rmatch] the backtracking matcher of ECMA-262 on it, in
    continuation-passing style: a greedy quantifier first tries one more
    character and gives it back when the continuation fails. *)

Module JsRegExp.

Inductive atom : Type :=
| Chr (c : ascii)          (* a literal character *)
| OneOf (cs : string)      (* [...] *)
| NoneOf (cs : string)     (* [^...] *)
| Space.                   (* \s *)

Inductive regex : Type :=
| Atom (a : atom)
| Lit (s : string)         (* a run of literal characters *)
| Seq (r1 r2 : regex)
| Alt (r1 r2 : regex)
| Star (a : atom)          (* a* *)
| Plus (a : atom)          (* a+ *)
| Opt (a : atom)           (* a? *)
| Group (r : regex).       (* ( r ) *)

(** [Canonicalize] under the [i] flag: a code unit is compared by its upper
    case.  A code unit outside ASCII never folds to an ASCII letter, and the
    patterns here hold ASCII letters only, so folding [a-z] is all there
    is. *)
Definition canonicalize (ci : bool) (c : ascii) : ascii :=
  let n := nat_of_ascii c in
  if ci && (97 <=? n) && (n <=? 122) then ascii_of_nat (n - 32) else c.

Definition chr_eq (ci : bool) (a b : ascii) : bool :=
  Ascii.eqb (canonicalize ci a) (canonicalize ci b).

Fixpoint mem (ci : bool) (c : ascii) (cs : string) : bool :=
  match cs with
  | EmptyString => false
  | String d cs' => chr_eq ci d c || mem ci c cs'
  end.

(** [\s]: tab, line feed, vertical tab, form feed, carriage return, space
    and the no-break space U+00A0 (the white space and line terminators
    among the code units below 256). *)
Definition is_space (c : ascii) : bool :=
  let n := nat_of_ascii c in
  ((9 <=? n) && (n <=? 13)) || (n =? 32) || (n =? 160).

Definition atom_matches (ci : bool) (a : atom) (c : ascii) : bool :=
  match a with
  | Chr d => chr_eq ci d c
  | OneOf cs => mem ci c cs
  | NoneOf cs => negb (mem ci c cs)
  | Space => is_space c
  end.

(** A literal run, under the [i] flag or not. *)
Fixpoint strip_lit (ci : bool) (p s : string) : option string :=
  match p with
  | EmptyString => Some s
  | String a p' =>
      match s with
      | String b s' => if chr_eq ci a b then strip_lit ci p' s' else None
      | EmptyString => None
      end
  end.

Section Matcher.
Context {R : Type}.

(** A continuation gets the captures so far and what is left of the input. *)
Definition cont : Type := list string -> string -> option R.

(** Greedy [a*]: one more character when it matches and the rest of the
    pattern then succeeds, otherwise stop here. *)
Fixpoint star (ci : bool) (a : atom) (k : cont) (caps : list string)
    (s : string) : option R :=
  match s with
  | String c s' =>
      if atom_matches ci a c then
        match star ci a k caps s' with
        | Some r => Some r
        | None => k caps s
        end
      else k caps s
  | EmptyString => k caps s
  end.

(** The text a sub-pattern consumed: [s] without its suffix [rest]. *)
Fixpoint consumed (s : string) (n : nat) : string :=
  match n, s with
  | S n', String c s' => String c (consumed s' n')
  | _, _ => EmptyString
  end.

(** Groups are numbered as they close; the patterns here nest none. *)
Fixpoint rmatch (ci : bool) (r : regex) (k : cont) (caps : list string)
    (s : string) : option R :=
  match r with
  | Atom a =>
      match s with
      | String c s' => if atom_matches ci a c then k caps s' else None
      | EmptyString => None
      end
  | Lit p =>
      match strip_lit ci p s with
      | Some rest => k caps rest
      | None => None
      end
  | Seq r1 r2 => rmatch ci r1 (rmatch ci r2 k) caps s
  | Alt r1 r2 =>
      match rmatch ci r1 k caps s with
      | Some res => Some res
      | None => rmatch ci r2 k caps s
      end
  | Star a => star ci a k caps s
  | Plus a =>
      match s with
      | String c s' => if atom_matches ci a c then star ci a k caps s' else None
      | EmptyString => None
      end
  | Opt a =>
      match s with
      | String c s' =>
          if atom_matches ci a c then
            match k caps s' with
            | Some res => Some res
            | None => k caps s
            end
          else k caps s
      | EmptyString => k caps s
      end
  | Group r1 =>
      rmatch ci r1
        (fun caps' rest =>
           k (caps' ++ [consumed s (String.length s - String.length rest)]) rest)
        caps s
  end.

End Matcher.

(** One match: what stands before it, the matched text, the captures and
    what stands after it. *)
Record match_result : Type := MatchResult {
  m_before : string;
  m_text : string;
  m_captures : list string;
  m_after : string
}.

(** The pattern matched at the start of [s]. *)
Definition match_here (ci : bool) (r : regex) (s : string)
    : option (string * list string * string) :=
  rmatch ci r
    (fun caps rest =>
       Some (consumed s (String.length s - String.length rest), caps, rest))
    [] s.

(** [RegExpBuiltinExec] from index 0: the leftmost start position at which
    the pattern matches. *)
Fixpoint exec (ci : bool) (r : regex) (s : string) : option match_result :=
  match match_here ci r s with
  | Some (text, caps, rest) => Some (MatchResult EmptyString text caps rest)
  | None =>
      match s with
      | EmptyString => None
      | String c s' =>
          match exec ci r s' with
          | Some m =>
              Some (MatchResult (String c (m_before m)) (m_text m)
                      (m_captures m) (m_after m))
          | None => None
          end
      end
  end.

(** [s.replace(re, repl)] for a pattern without the [g] flag: the first
    match only. *)
Definition replace (s : string) (ci : bool) (r : regex) (repl : string)
    : string :=
  match exec ci r s with
  | None => s
  | Some m =>
      m_before m
      +:+ JsString.getSubstitution (m_text m) (m_before m) (m_after m)
            (m_captures m) repl
      +:+ m_after m
  end.

(** The matches of a pattern with the [g] flag, left to right, each search
    starting where the match before ended (one character further after an
    empty match). *)
Fixpoint match_all_from (fuel : nat) (ci : bool) (r : regex) (s : string)
    : list string :=
  match fuel with
  | 0 => []
  | S fuel' =>
      match exec ci r s with
      | None => []
      | Some m =>
          m_text m ::
          match m_text m, m_after m with
          | EmptyString, EmptyString => []
          | EmptyString, String _ rest => match_all_from fuel' ci r rest
          | _, rest => match_all_from fuel' ci r rest
          end
      end
  end.

(** [s.match(re)] for a pattern with the [g] flag: [null] ([None]) when
    nothing matches, the array of matched texts otherwise. *)
Definition match_global (ci : bool) (r : regex) (s : string)
    : option (list string) :=
  match match_all_from (S (String.length s)) ci r s with
  | [] => None
  | ms => Some ms
  end.

(** [avoids ci c r]: no part of the pattern [r] takes the character [c]. *)
Fixpoint avoids (ci : bool) (c : ascii) (r : regex) : bool :=
  match r with
  | Atom a | Star a | Plus a | Opt a => negb (atom_matches ci a c)
  | Lit p => negb (mem ci c p)
  | Seq r1 r2 | Alt r1 r2 => avoids ci c r1 && avoids ci c r2
  | Group r1 => avoids ci c r1
  end.

(** [accepts ci r p]: the pattern [r] can take the text [p], in front of
    whatever the rest of the pattern goes on with. *)
Definition accepts (ci : bool) (r : regex) (p : string) : Prop :=
  forall (R : Type) (k : cont (R := R)) (rest : string),
    (forall caps, k caps rest <> None) ->
    forall caps, rmatch ci r k caps (p +:+ rest) <> None.

End JsRegExp.

(** ** Values and completions *)

Module JsValue.

(** The result of running a statement: it completes or it throws. *)
Inductive completion (A : Type) : Type :=
| Normal (a : A)
| Throw (msg : string).
Arguments Normal {A} a.
Arguments Throw {A} msg.

(** A JavaScript string value or [null]. *)
Definition jsval : Type := option string.

(** [ToString] of such a value, as [setAttribute], a property key and a
    template literal apply it. *)
Definition to_string (v : jsval) : string :=
  match v with
  | Some s => s
  | None => "null"
  end.

(** Truthiness of a string value or [undefined]: a string other than the
    empty one. *)
Definition truthy (v : option string) : bool :=
  match v with
  | Some (String _ _) => true
  | _ => false
  end.

(** What a property read gives when the property is there: a string, or an
    object or a function.  An object or a function is truthy whatever it
    is; [shown] is the string [ToString] makes of it. *)
Inductive property : Type :=
| StringValue (s : string)
| ObjectValue (shown : string).

(** [ToString] of such a value. *)
Definition property_string (p : property) : string :=
  match p with
  | StringValue s => s
  | ObjectValue shown => shown
  end.

End JsValue.

(** ** The preview widget: data and HTML patches ([src/unnamed/part_001]) *)

Module Widget.
Import JsValue JsString JsRegExp.

(** A [<meta>] element as the widget reads it: [getAttribute('name')] and
    [getAttribute('content')], [None] for [null] (no such attribute). *)
Record meta : Type := Meta {
  meta_name : option string;
  meta_content : option string
}.

(** What the widget imports and the browser provides.  [parseMetas html] is
    the browser's HTML parser: the [<meta>] elements, in document order, of
    a [div] whose [innerHTML] was set to [html].  [CTA_TYPES]
    ([./cta-types]), [cssPatch] and [navigationPatch] ([./story-patch]) and
    [minifyInlineJs] ([./utils/minify-inline-js]) are modules of the
    repository that the widget only imports.

    [CTA_TYPES] holds the own properties of the table object, from type to
    label.  [CTA_TYPES_inherited] holds what the table object inherits
    through its prototype chain, each property a function or an object,
    given by the string [ToString] makes of it: for a table written as an
    object literal these are the properties of [Object.prototype], such as
    [constructor] and [toString]; for an object without a prototype there
    are none. *)
Class Browser : Type := {
  parseMetas : string -> list meta;
  CTA_TYPES : gmap string string;
  CTA_TYPES_inherited : gmap string string;
  cssPatch : string;
  navigationPatch : string;
  minifyInlineJs : string -> string
}.

(** Modelled from the spec: [assert] of [../lib/assert], which is not among
    the sources.  The spec has a failed assertion raise at once ("missing
    markers raise immediately and abort the update"), and the widget uses
    the value [assert] returns; so [assert value msg] returns [value] when
    it is truthy and throws [msg] otherwise. *)
Definition assert (value : option string) (msg : string) : completion string :=
  match value with
  | Some (String c s) => Normal (String c s)
  | _ => Throw msg
  end.

(** Modelled from the spec: [assert] again, on a value that may be an
    object or a function, which is truthy and is returned as it is. *)
Definition assertProperty (value : option property) (msg : string)
    : completion property :=
  match value with
  | Some (StringValue s) =>
      match assert (Some s) msg with
      | Normal s' => Normal (StringValue s')
      | Throw msg' => Throw msg'
      end
  | Some (ObjectValue shown) => Normal (ObjectValue shown)
  | None => Throw msg
  end.

Definition defaultCtaType : string := "LEARN_MORE".
Definition defaultCtaUrl : string := "https://amp.dev".

Definition dquote : ascii := ascii_of_nat 34.
Definition quotes : atom := OneOf (String "'" (String dquote EmptyString)).

Infix ">>" := Seq (at level 60, right associativity).

(** The pattern [metaCtaRe] of the source, flags [g] and [i]: the literal
    [<meta], [\s+], any run without [>], the literal [name=], an optional
    quote (single or double), [amp-cta-], the group [type|url], an optional
    quote, any run without [>], and [>]. *)
Definition metaCtaRe : regex :=
  Lit "<meta" >> Plus Space >> Star (NoneOf ">") >> Lit "name=" >>
  Opt quotes >> Lit "amp-cta-" >> Group (Alt (Lit "type") (Lit "url")) >>
  Opt quotes >> Star (NoneOf ">") >> Lit ">".

(** The pattern of [setBodyAmpStoryVisible], no flags: [<], the group made
    of [body] and any run without [>], and [>]. *)
Definition bodyRe : regex :=
  Lit "<" >> Group (Lit "body" >> Star (NoneOf ">")) >> Lit ">".

Definition defaultIframeSandbox : string :=
  join " "
    [ "allow-scripts";
      "allow-forms";
      "allow-same-origin";
      "allow-popups";
      "allow-popups-to-escape-sandbox";
      "allow-top-navigation" ].

Definition httpsCircumventionSource : string :=
"
<script>
  (doc => {
    const createElement = doc.createElement;
    doc.createElement = function(tagName) {
      const el = createElement.apply(doc, arguments);
      if (/^a$/i.test(tagName)) {
        Object.defineProperty(el, 'protocol', {value: 'https:'});
      }
      return el;
    };
  })(document);
  </script>".

Section Patches.
Context `{Browser}.

Definition httpsCircumventionPatch : string :=
  minifyInlineJs httpsCircumventionSource.

Definition setBodyAmpStoryVisible (docStr : string) : string :=
  JsRegExp.replace docStr false bodyRe "<$1 amp-story-visible>".

Definition addScriptToHead (docStr headContent : string) : string :=
  JsString.replace docStr "<head>" ("<head>" +:+ headContent).

Definition insertHttpsCircumventionPatch (docStr : string) : string :=
  addScriptToHead docStr httpsCircumventionPatch.

Definition storyNavigationPatch (docStr pageId : string) : string :=
  addScriptToHead docStr (JsString.replace navigationPatch "$pageId$" pageId).

Definition storyCssPatch (docStr : string) : string :=
  addScriptToHead docStr cssPatch.

Definition patch (docStr : string) : string :=
  setBodyAmpStoryVisible (insertHttpsCircumventionPatch docStr).

Definition patchOuter (str pageId : string) : string :=
  storyNavigationPatch (storyCssPatch str) pageId.

End Patches.

(** *** The CTA link *)

(** The link element [.i-amphtml-story-ad-link] as the widget writes it:
    its [href] attribute ([None] while it has none) and its text. *)
Record link : Type := Link {
  href : option string;
  textContent : string
}.

Definition newline : string := String (ascii_of_nat 10) EmptyString.

(** [name == 'amp-cta-type']: [null] equals no string. *)
Definition name_is (v : jsval) (s : string) : bool :=
  match v with
  | Some n => String.eqb n s
  | None => false
  end.

Section Cta.
Context `{Browser}.

(** One turn of the loop over the parsed [<meta>] elements. *)
Definition ctaStep (acc : jsval * jsval) (m : meta) : jsval * jsval :=
  let type := if name_is (meta_name m) "amp-cta-type" then meta_content m
              else fst acc in
  let url := if name_is (meta_name m) "amp-cta-url" then meta_content m
             else snd acc in
  (type, url).

(** The first part of [setMetaCtaLink]: the values of its variables [type]
    and [url] when the link is written. *)
Definition resolveCta (docStr : string) : jsval * jsval :=
  let defaults := (Some defaultCtaType, Some defaultCtaUrl) in
  match match_global true metaCtaRe docStr with
  | Some (m :: ms) =>
      fold_left ctaStep (parseMetas (join newline (m :: ms))) defaults
  | _ => defaults
  end.

(** [CTA_TYPES[key]]: an own property of the table, or else a property the
    table inherits; [None] ([undefined]) when there is neither. *)
Definition readCtaType (key : string) : option property :=
  match CTA_TYPES !! key with
  | Some label => Some (StringValue label)
  | None =>
      match CTA_TYPES_inherited !! key with
      | Some shown => Some (ObjectValue shown)
      | None => None
      end
  end.

(** [setMetaCtaLink(win, docStr, ctaLink)]: the link as the call leaves it
    and how the call completes.  The link's text is [ToString] of what the
    assertion returns. *)
Definition setMetaCtaLink (docStr : string) (ctaLink : link)
    : link * completion unit :=
  let (type, url) := resolveCta docStr in
  let ctaLink1 := Link (Some (to_string url)) (textContent ctaLink) in
  match assertProperty (readCtaType (to_string type))
                       ("Unknown CTA type " +:+ to_string type) with
  | Normal label => (Link (href ctaLink1) (property_string label), Normal tt)
  | Throw msg => (ctaLink1, Throw msg)
  end.

End Cta.

(** *** The host element *)

(** The host element: its [data-template] attribute, what a template
    literal prints for it, and whether the wrapper iframe was rendered into
    it. *)
Record element : Type := Element {
  dataTemplate : option string;
  elementString : string;
  rendered : bool
}.

(** [getDataTemplate(element)]: the attribute is removed before the
    assertion is made. *)
Definition getDataTemplate (el : element) : element * completion string :=
  (Element None (elementString el) (rendered el),
   assert (dataTemplate el)
     ("Expected [data-template] on " +:+ elementString el)).

(** *** Promises, jobs and the event loop

    The widget is single-threaded: an [async] method runs until its next
    [await], the rest of it is queued as a job, and jobs run one at a time to
    their own next [await].  A job that awaits one of the widget's promises
    runs only once that promise is fulfilled. *)

(** [this.storyIframe_], [this.adIframe_] and [this.storyCtaLink_] as the
    constructor creates them. *)
Inductive promise : Type := StoryIframe | AdIframe | StoryCtaLink.

Definition promise_eqb (p q : promise) : bool :=
  match p, q with
  | StoryIframe, StoryIframe | AdIframe, AdIframe
  | StoryCtaLink, StoryCtaLink => true
  | _, _ => false
  end.

(** What runs as a job sequence of its own: the chain behind one of the
    constructor's promises, or a call of a method. *)
Inductive name : Type :=
| Chain (p : promise)
| Method (fn : string).

(** What the widget does to the page, and how its promises settle. *)
Inductive event : Type :=
| Rendered                      (* render(WrappedIframe(), element) *)
| Attached                      (* untilAttached(...) was fulfilled *)
| Loaded                        (* whenIframeLoaded(story iframe) was fulfilled *)
| WroteStory (doc : string)     (* writeToIframe(story iframe, doc) *)
| Selected (selector : string)  (* querySelector in the story document *)
| SetHref (url : string)        (* ctaLink.setAttribute('href', url) *)
| SetText (label : string)      (* ctaLink.textContent = label *)
| WroteAd (doc : string)        (* writeToIframe(ad iframe, doc) *)
| Fulfilled (n : name)
| Rejected (n : name) (msg : string).

Record state : Type := State {
  storyDoc : string;             (* this.storyDoc *)
  settled : list promise;        (* the promises fulfilled so far *)
  storyFrame : option string;    (* the document last written to the story iframe *)
  adFrame : option string;       (* the document last written to the ad iframe *)
  ctaLink : link;                (* the link this.storyCtaLink_ stands for *)
  log : list event               (* the newest event first *)
}.

(** The events in the order they happened. *)
Definition history (st : state) : list event := rev (log st).

Definition set_storyDoc (d : string) (st : state) : state :=
  State d (settled st) (storyFrame st) (adFrame st) (ctaLink st) (log st).

Definition emit (e : event) (st : state) : state :=
  State (storyDoc st) (settled st) (storyFrame st) (adFrame st) (ctaLink st)
    (e :: log st).

Definition settle (n : name) (st : state) : state :=
  let st' := emit (Fulfilled n) st in
  match n with
  | Chain p =>
      State (storyDoc st') (p :: settled st') (storyFrame st') (adFrame st')
        (ctaLink st') (log st')
  | Method _ => st'
  end.

Definition is_settled (p : promise) (st : state) : bool :=
  existsb (promise_eqb p) (settled st).

(** A synchronous statement. *)
Definition stmt : Type := state -> state * completion unit.

(** Modelled from the spec: [untilAttached] of [./utils/until-attached] and
    [whenIframeLoaded] of [./utils/iframe], which are not among the sources.
    The spec has them as pending references the browser fulfils
    ("construction kicks off a pending reference to the attached iframe;
    each update awaits the relevant pending iframe before mutating it"), so
    each is a wait for the browser, [Browser_event], followed by the event
    that it was fulfilled.

    What an [await] waits for: a promise of the widget, something the
    browser does (the iframe is attached, the iframe has loaded), or a
    value that is there already (one turn of the job queue). *)
Inductive wait : Type :=
| On (p : promise)
| Browser_event
| Tick.

(** The body of an [async] function or of a [then] chain. *)
Inductive proc : Type :=
| Return
| Sync (f : stmt) (k : proc)
| Await (w : wait) (k : proc)
| Spawn (n : name) (child : proc) (k : proc).   (* a call whose promise is dropped *)

(** A suspended job: whose it is, what it waits for, how it goes on. *)
Definition task : Type := name * wait * proc.

Definition ready (w : wait) (st : state) : bool :=
  match w with
  | On p => is_settled p st
  | Browser_event | Tick => true
  end.

(** Run a body up to its next [await]: the state it leaves and the jobs it
    suspended.  A body that throws rejects its own promise and nothing
    else; the body of a dropped call runs, up to its first [await], inside
    the caller's job. *)
Fixpoint run_job (n : name) (p : proc) (st : state) : state * list task :=
  match p with
  | Return => (settle n st, [])
  | Sync f k =>
      match f st with
      | (st', Normal _) => run_job n k st'
      | (st', Throw msg) => (emit (Rejected n msg) st', [])
      end
  | Await w k => (st, [(n, w, k)])
  | Spawn cn child k =>
      let (st1, q1) := run_job cn child st in
      let (st2, q2) := run_job n k st1 in
      (st2, q1 ++ q2)
  end.

(** The job queue: the first job runs when what it waits for is there, and
    goes to the back of the queue otherwise.  The result is the queue left
    when the fuel is used up (empty when every job has run) and the state
    reached. *)
Fixpoint event_loop (fuel : nat) (queue : list task) (st : state)
    : list task * state :=
  match fuel with
  | 0 => (queue, st)
  | S fuel' =>
      match queue with
      | [] => ([], st)
      | (n, w, k) :: rest =>
          if ready w st then
            let (st', q) := run_job n k st in
            event_loop fuel' (rest ++ q) st'
          else event_loop fuel' (rest ++ [(n, w, k)]) st
      end
  end.

(** *** The widget's methods *)

Declare Scope proc_scope.
Delimit Scope proc_scope with proc.
Bind Scope proc_scope with proc.
Notation "f ;; k" := (Sync f k)
  (at level 100, k at level 200, only parsing) : proc_scope.
Notation "'await' w ;; k" := (Await w k)
  (at level 100, w at level 9, k at level 200, only parsing) : proc_scope.

Definition say (e : event) : stmt := fun st => (emit e st, Normal tt).

(** Modelled from the spec: [writeToIframe] of [./utils/iframe], which is
    not among the sources.  The widget "writes to nested iframe documents as
    its only externally observable effect": a write replaces the document of
    the iframe and is recorded in the log.

    [writeToIframe(await this.storyIframe_, doc)], [doc] read from the
    state it runs in. *)
Definition writeStory (doc : state -> string) : stmt := fun st =>
  (State (storyDoc st) (settled st) (Some (doc st)) (adFrame st) (ctaLink st)
     (WroteStory (doc st) :: log st),
   Normal tt).

(** [this.storyDoc = d]. *)
Definition setStoryDoc (d : string) : stmt := fun st =>
  (set_storyDoc d st, Normal tt).

(** Modelled from the spec: [writeToIframe] again, on the ad iframe:
    [writeToIframe(await this.adIframe_, doc)]. *)
Definition writeAd (doc : string) : stmt := fun st =>
  (State (storyDoc st) (settled st) (storyFrame st) (Some doc) (ctaLink st)
     (WroteAd doc :: log st),
   Normal tt).

Section Methods.
Context `{Browser}.

(** [setMetaCtaLink] on the widget's link, each write to the link logged. *)
Definition setMetaCtaLinkStmt (docStr : string) : stmt := fun st =>
  let (l, c) := setMetaCtaLink docStr (ctaLink st) in
  let events :=
    match c with
    | Normal _ => [SetText (textContent l); SetHref (to_string (href l))]
    | Throw _ => [SetHref (to_string (href l))]
    end in
  (State (storyDoc st) (settled st) (storyFrame st) (adFrame st) l
     (events ++ log st),
   c).

(** [this.storyIframe_]: attached, loaded, the story document written,
    loaded again. *)
Definition storyIframeChain : proc :=
  await Browser_event ;; say Attached ;;
  await Browser_event ;; say Loaded ;;
  writeStory (fun st => patchOuter (storyDoc st) "page-1") ;;
  await Browser_event ;; say Loaded ;;
  Return.

(** [awaitSelect(this.storyIframe_, selector)]. *)
Definition awaitSelect (selector : string) (k : proc) : proc :=
  await (On StoryIframe) ;; say (Selected selector) ;; k.

(** The constructor after [this.storyDoc] is set. *)
Definition constructorBody : proc :=
  Spawn (Chain StoryIframe) storyIframeChain
    (Spawn (Chain AdIframe) (awaitSelect "iframe" Return)
       (Spawn (Chain StoryCtaLink)
          (awaitSelect ".i-amphtml-story-ad-link" Return)
          (say Rendered ;; Return))).

Definition updateInner (dirty : string) (switchingContext : bool) : proc :=
  await (On StoryIframe) ;;
  writeStory (fun st =>
    if switchingContext then patchOuter (storyDoc st) "page-1"
    else storyCssPatch (storyDoc st)) ;;
  await (On StoryIframe) ;;
  await Browser_event ;; say Loaded ;;
  awaitSelect "iframe" (
  await Tick ;;
  await (On StoryCtaLink) ;;
  setMetaCtaLinkStmt dirty ;;
  await Tick ;;
  writeAd (patch dirty) ;;
  Return).

Definition updateOuter (dirty dirtyInner : string) (switchingContext : bool)
    : proc :=
  setStoryDoc dirty ;;
  let rest :=
    awaitSelect "iframe" (
    await Tick ;;
    Spawn (Method "updateInner") (updateInner dirtyInner false) Return) in
  if switchingContext then
    await (On StoryIframe) ;;
    writeStory (fun _ => patchOuter dirty "cover") ;;
    await (On StoryIframe) ;;
    await Browser_event ;; say Loaded ;;
    rest
  else rest.

(** [new AmpStoryAdPreview(win, element)]: the element as the constructor
    leaves it, and either the error it throws or the jobs it queued and the
    widget's state. *)
Definition construct (el : element)
    : element * completion (list task * state) :=
  let (el1, c) := getDataTemplate el in
  match c with
  | Throw msg => (el1, Throw msg)
  | Normal template =>
      let st0 :=
        State (JsString.replace template "{{ adSandbox }}" defaultIframeSandbox)
          [] None None (Link None EmptyString) [] in
      let (st1, q) := run_job (Method "constructor") constructorBody st0 in
      (Element (dataTemplate el1) (elementString el1) true, Normal (q, st1))
  end.

(** A call of one of the two update methods. *)
Inductive call : Type :=
| UpdateInner (dirty : string) (switchingContext : bool)
| UpdateOuter (dirty dirtyInner : string) (switchingContext : bool).

Definition call_name (c : call) : name :=
  match c with
  | UpdateInner _ _ => Method "updateInner"
  | UpdateOuter _ _ _ => Method "updateOuter"
  end.

Definition call_body (c : call) : proc :=
  match c with
  | UpdateInner dirty sw => updateInner dirty sw
  | UpdateOuter dirty dirtyInner sw => updateOuter dirty dirtyInner sw
  end.

(** The caller makes a call while the jobs of [queue] are pending: the
    method runs to its first [await] at once. *)
Definition invoke (c : call) (queue : list task) (st : state)
    : list task * state :=
  let (st', q) := run_job (call_name c) (call_body c) st in
  (queue ++ q, st').

(** Jobs enough for one call and all it starts. *)
Definition fuel : nat := 32.

(** A session in which the caller makes each call once the jobs of the one
    before have run. *)
Fixpoint session (calls : list call) (queue : list task) (st : state)
    : list task * state :=
  match calls with
  | [] => event_loop fuel queue st
  | c :: calls' =>
      let (q1, st1) := event_loop fuel queue st in
      let (q2, st2) := invoke c q1 st1 in
      session calls' q2 st2
  end.

(** What happens next in an execution: the caller makes a call, or the
    event loop takes up to [n] turns. *)
Inductive move : Type :=
| Call (c : call)
| Turns (n : nat).

(** Any execution: calls made at any point between the jobs. *)
Fixpoint execute (moves : list move) (queue : list task) (st : state)
    : list task * state :=
  match moves with
  | [] => (queue, st)
  | Call c :: moves' =>
      let (q, st') := invoke c queue st in
      execute moves' q st'
  | Turns n :: moves' =>
      let (q, st') := event_loop n queue st in
      execute moves' q st'
  end.

(** The execution in which the caller makes the calls one after the other,
    each once the jobs of the one before (and, for the first call, those of
    the constructor) have run. *)
Definition serially (calls : list call) : list move :=
  Turns fuel :: flat_map (fun c => [Call c; Turns fuel]) calls.

(** The widget built on [el] and taken through [calls]. *)
Definition run_widget (el : element) (calls : list call)
    : completion (list task * state) :=
  match construct el with
  | (_, Normal (q, st)) => Normal (session calls q st)
  | (_, Throw msg) => Throw msg
  end.

(** *** What a job may rely on

    [known] is what the code of one job sequence has established, in its
    own program order, by the point it has reached: that
    [this.storyIframe_] is fulfilled; the ad document whose CTA it has
    written to the link; that it wrote a story document; that it saw the
    story iframe loaded after that. *)
Record known : Type := Known {
  story_ready : bool;
  cta_of : option string;
  wrote : bool;
  saw_loaded : bool
}.

Definition nothing_known : known := Known false None false false.

Definition on_story (w : wait) : bool :=
  match w with
  | On StoryIframe => true
  | _ => false
  end.

(** [in_program_order n a p]: the body [p] of the job sequence [n], started
    knowing [a], looks up the story document only once it knows
    [this.storyIframe_] fulfilled, writes an ad document only after it has
    written that document's CTA to the link, and fulfils
    [this.storyIframe_] only after it has written the story document and
    seen it loaded. *)
Inductive in_program_order (n : name) : known -> proc -> Prop :=
| po_return a :
    (n = Chain StoryIframe -> saw_loaded a = true) ->
    in_program_order n a Return
| po_rendered a k :
    in_program_order n a k -> in_program_order n a (Sync (say Rendered) k)
| po_attached a k :
    in_program_order n a k -> in_program_order n a (Sync (say Attached) k)
| po_loaded a k :
    in_program_order n
      (Known (story_ready a) (cta_of a) (wrote a) (wrote a || saw_loaded a)) k ->
    in_program_order n a (Sync (say Loaded) k)
| po_selected a sel k :
    story_ready a = true ->
    in_program_order n a k ->
    in_program_order n a (Sync (say (Selected sel)) k)
| po_setStoryDoc a d k :
    in_program_order n a k -> in_program_order n a (Sync (setStoryDoc d) k)
| po_writeStory a doc k :
    in_program_order n (Known (story_ready a) (cta_of a) true false) k ->
    in_program_order n a (Sync (writeStory doc) k)
| po_setMetaCtaLink a d k :
    in_program_order n (Known (story_ready a) (Some d) (wrote a) (saw_loaded a)) k ->
    in_program_order n a (Sync (setMetaCtaLinkStmt d) k)
| po_writeAd a d k :
    cta_of a = Some d ->
    in_program_order n (Known (story_ready a) None (wrote a) (saw_loaded a)) k ->
    in_program_order n a (Sync (writeAd (patch d)) k)
| po_await a w k :
    in_program_order n
      (Known (story_ready a || on_story w) (cta_of a) (wrote a) (saw_loaded a)) k ->
    in_program_order n a (Await w k)
| po_spawn a cn child k :
    in_program_order cn (Known (story_ready a) None false false) child ->
    in_program_order n a k ->
    in_program_order n a (Spawn cn child k).

(** [a] is true of the state [st]. *)
Definition holds (st : state) (a : known) : Prop :=
  (story_ready a = true -> is_settled StoryIframe st = true) /\
  (forall d, cta_of a = Some d ->
     SetHref (to_string (snd (resolveCta d))) ∈ log st /\
     exists t, SetText t ∈ log st) /\
  (wrote a = true -> exists d, WroteStory d ∈ log st) /\
  (saw_loaded a = true ->
     exists x y d z, log st = x ++ Loaded :: y ++ WroteStory d :: z).

(** [st'] comes after [st]: events were added, promises stay fulfilled. *)
Definition extends (st st' : state) : Prop :=
  (exists new, log st' = new ++ log st) /\
  (forall p, is_settled p st = true -> is_settled p st' = true).

(** A queued job goes on in program order from something true. *)
Definition task_ok (st : state) (t : task) : Prop :=
  exists a, holds st a /\ in_program_order (fst (fst t)) a (Await (snd (fst t)) (snd t)).

(** The order every execution keeps, on the log (newest event first):
    before a [querySelector] the promise [this.storyIframe_] was fulfilled;
    before that a story document was written and then seen loaded; before
    an ad document is written the link got the [href] of that document's
    CTA, and a text. *)
Definition log_ok (l : list event) : Prop :=
  (forall post sel pre,
     l = post ++ Selected sel :: pre -> Fulfilled (Chain StoryIframe) ∈ pre) /\
  (forall post pre,
     l = post ++ Fulfilled (Chain StoryIframe) :: pre ->
     exists x y d z, pre = x ++ Loaded :: y ++ WroteStory d :: z) /\
  (forall post doc pre,
     l = post ++ WroteAd doc :: pre ->
     exists d, doc = patch d /\
       SetHref (to_string (snd (resolveCta d))) ∈ pre /\
       exists t, SetText t ∈ pre).

(** A promise counted fulfilled has its event in the log. *)
Definition settled_ok (st : state) : Prop :=
  is_settled StoryIframe st = true -> Fulfilled (Chain StoryIframe) ∈ log st.

(** An event the order does not speak of. *)
Definition plain (e : event) : Prop :=
  (forall sel, e <> Selected sel) /\
  e <> Fulfilled (Chain StoryIframe) /\
  (forall doc, e <> WroteAd doc).

(** What every execution keeps true. *)
Definition execution_ok (queue : list task) (st : state) : Prop :=
  log_ok (log st) /\ settled_ok st /\ Forall (task_ok st) queue.

(** What one job keeps true. *)
Definition job_ok (n : name) (p : proc) (st : state) : Prop :=
  log_ok (log (fst (run_job n p st))) /\
  settled_ok (fst (run_job n p st)) /\
  extends st (fst (run_job n p st)) /\
  Forall (task_ok (fst (run_job n p st))) (snd (run_job n p st)).

(** One call made on an idle widget and run until the queue is empty. *)
Definition call_result (c : call) (st : state) : list task * state :=
  let (q, st') := invoke c [] st in
  event_loop fuel q st'.

End Methods.

(** The constructor's three promises are fulfilled. *)
Definition idle (st : state) : Prop :=
  is_settled StoryIframe st = true /\
  is_settled AdIframe st = true /\
  is_settled StoryCtaLink st = true.

(** *** Watching the order of events

    [watch] reads a log, oldest event first, and keeps: whether the story
    iframe has loaded since a document was last written to it; how far the
    link has just been written (0: not, 1: its [href], 2: its [href] and
    then its text); and whether so far every [querySelector] found the
    story loaded and every write to the ad iframe came right after the two
    writes to the link. *)
Record watch : Type := Watch {
  story_loaded : bool;
  link_written : nat;
  in_order : bool
}.

Definition observe (e : event) (w : watch) : watch :=
  match e with
  | WroteStory _ => Watch false 0 (in_order w)
  | Loaded => Watch true 0 (in_order w)
  | Selected _ => Watch (story_loaded w) 0 (in_order w && story_loaded w)
  | SetHref _ => Watch (story_loaded w) 1 (in_order w)
  | SetText _ =>
      Watch (story_loaded w) (if link_written w =? 1 then 2 else 0) (in_order w)
  | WroteAd _ => Watch (story_loaded w) 0 (in_order w && (link_written w =? 2))
  | _ => Watch (story_loaded w) 0 (in_order w)
  end.

(** The log holds the newest event first. *)
Definition watch_log (l : list event) : watch :=
  fold_right observe (Watch false 0 true) l.

(** What a session keeps true between calls. *)
Definition settled_in_order (st : state) : Prop :=
  idle st /\
  in_order (watch_log (log st)) = true /\
  story_loaded (watch_log (log st)) = true.

End Widget.

(** ** A sample browser

    One instance of [Browser], to run the widget on concrete documents: a
    reader of [<meta>] tags whose attributes are written [name='value'], a
    table of two CTA types written as an object literal, and short
    patches. *)

Module Sample.
Import JsValue JsString Widget.

(** The value of the attribute written [attr='...'] in the text of a tag. *)
Definition attribute (attr tag : string) : option string :=
  match indexOf_split (" " +:+ attr +:+ "='") tag with
  | Some (_, after) =>
      match indexOf_split "'" after with
      | Some (value, _) => Some value
      | None => None
      end
  | None => None
  end.

(** The tags of [html], each up to its [>]. *)
Fixpoint split_tags (cur html : string) : list string :=
  match html with
  | EmptyString => []
  | String c rest =>
      if Ascii.eqb c ">" then (cur +:+ ">") :: split_tags EmptyString rest
      else split_tags (cur +:+ String c EmptyString) rest
  end.

Definition readMetas (html : string) : list meta :=
  map (fun tag => Meta (attribute "name" tag) (attribute "content" tag))
    (filter (fun tag => includes tag "<meta" = true) (split_tags EmptyString html)).

(** The properties of [Object.prototype], which a table written as an
    object literal inherits: each a function, [constructor] being [Object],
    given by the text V8 prints for a native function; but [__proto__],
    which reads as [Object.prototype] itself. *)
Definition nativeFunction (name : string) : string :=
  "function " +:+ name +:+ "() { [native code] }".

Definition objectPrototype : gmap string string :=
  list_to_map
    (("constructor", nativeFunction "Object")
     :: ("__proto__", "[object Object]")
     :: map (fun name => (name, nativeFunction name))
          [ "toString"; "toLocaleString"; "valueOf"; "hasOwnProperty";
            "isPrototypeOf"; "propertyIsEnumerable"; "__defineGetter__";
            "__defineSetter__"; "__lookupGetter__"; "__lookupSetter__" ]).

#[export] Instance browser : Browser := {|
  parseMetas := readMetas;
  CTA_TYPES := {[ "LEARN_MORE" := "Learn More"; "SHOP" := "Shop Now" ]};
  CTA_TYPES_inherited := objectPrototype;
  cssPatch := "<style>amp-story{}</style>";
  navigationPatch := "<script>go('$pageId$')</script>";
  minifyInlineJs := fun js => js
|}.

Definition host : element :=
  Element (Some "<html><head></head><body><iframe sandbox='{{ adSandbox }}'></iframe></body></html>")
    "[object HTMLDivElement]" false.

(** The widget built on [host], as the constructor leaves it: the jobs it
    queued and its state. *)
Definition started : list task * state :=
  match construct host with
  | (_, Normal r) => r
  | (_, Throw _) => ([], State EmptyString [] None None (Link None EmptyString) [])
  end.

(** The widget built on [host] and run through [calls]: the jobs left and
    the state reached. *)
Definition run (calls : list call) : list task * state :=
  match construct host with
  | (_, Normal (q, st)) => session calls q st
  | (_, Throw _) => ([], State EmptyString [] None None (Link None EmptyString) [])
  end.

(** An execution with overlapping calls: [updateOuter] is called when the
    [updateInner] called before it has run one job, the one that writes
    the story document. *)
Definition overlapping : list task * state :=
  execute
    [ Turns fuel; Call (UpdateInner "<p>Ad</p>" false); Turns 1;
      Call (UpdateOuter "<html><head></head><body>Story</body></html>"
              "<p>Ad 2</p>" false);
      Turns fuel ]
    (fst started) (snd started).

End Sample.

(** ** The build script ([src/bin/build.js]) *)

Module Build.
Import JsValue.

Record inputOptions : Type := InputOptions {
  input : string;
  plugins : list string
}.

Record outputOptions : Type := OutputOptions {
  file : string;
  format : string;
  name : string
}.

Definition inputConfig : inputOptions :=
  InputOptions "src/bundles/app.js"
    ["postcss"; "nodeResolve"; "commonjs"; "babel"].

Definition outputBundles : list outputOptions :=
  [ OutputOptions "dist/app.js" "iife" "ampStoryAdPreview" ].

(** [minifyConfig = {mangle: {toplevel: true}}]. *)
Record minifyOptions : Type := MinifyOptions { mangle_toplevel : bool }.
Definition minifyConfig : minifyOptions := MinifyOptions true.

(** The bundler and the minifier.  [rollup config] is the bundle rollup
    builds, or its failure; [bundle_code b out] is the text
    [b.write(out)] writes to [out.file], or its failure;
    [minify code config] is the [code] field of what terser's [minify]
    returns. *)
Class Tools (bundle : Type) : Type := {
  rollup : inputOptions -> completion bundle;
  bundle_code : bundle -> outputOptions -> completion string;
  minify : string -> minifyOptions -> string
}.

(** What the script does, in order. *)
Inductive event : Type :=
| Step (msg : string)          (* step(msg, ...) *)
| Rollup (config : inputOptions)
| BundleWrite (f : string)     (* mainBundle.write(outputBundle) *)
| ReadFile (f : string)        (* fs.readFile(file) *)
| OutputFile (f : string).     (* fs.outputFile(file, ...) *)

(** The files and the events so far, the newest first. *)
Record world : Type := World {
  files : gmap string string;
  log : list event
}.

Definition history (w : world) : list event := rev (log w).

(** An asynchronous action run to its end: the world it leaves, and its
    value or the error it rejects with. *)
Definition action (A : Type) : Type := world -> world * completion A.

Definition ret {A : Type} (a : A) : action A := fun w => (w, Normal a).

Definition bind {A B : Type} (m : action A) (k : A -> action B) : action B :=
  fun w =>
    match m w with
    | (w', Normal a) => k a w'
    | (w', Throw msg) => (w', Throw msg)
    end.

Definition say (e : event) : action unit :=
  fun w => (World (files w) (e :: log w), Normal tt).

Definition lift {A : Type} (c : completion A) : action A := fun w => (w, c).

(** [Promise.all(list.map(cb))]: [cb] is called on every entry, in order,
    whether or not an earlier call failed; the whole fails when one of them
    did. *)
Fixpoint all_of {A : Type} (cb : A -> action unit) (l : list A) : action unit :=
  match l with
  | [] => ret tt
  | x :: rest =>
      fun w =>
        match cb x w with
        | (w1, Normal _) => all_of cb rest w1
        | (w1, Throw msg) => (fst (all_of cb rest w1), Throw msg)
        end
  end.

(** Modelled from the spec: [step] of [../lib/log], which is not among the
    sources.  The spec has the build "strictly sequential" with failure
    "fatal and surfaced to the invoking process": a step announces itself,
    runs its callback and passes on how the callback ends. *)
Definition step {A : Type} (msg : string) (fn : action A) : action A :=
  bind (say (Step msg)) (fun _ => fn).

Section Script.
Context {bundle : Type} `{Tools bundle}.

Definition withAllBundles (cb : outputOptions -> action unit) : action unit :=
  all_of cb outputBundles.

(** [fs.readFile(file)], failing on a file that is not there. *)
Definition readFile (f : string) : action string :=
  bind (say (ReadFile f)) (fun _ w =>
    match files w !! f with
    | Some text => (w, Normal text)
    | None => (w, Throw ("ENOENT: no such file or directory, open '" +:+ f +:+ "'"))
    end).

Definition outputFile (f text : string) : action unit :=
  fun w => (World (<[f := text]> (files w)) (OutputFile f :: log w), Normal tt).

(** [mainBundle.write(outputBundle)]. *)
Definition bundleWrite (b : bundle) (out : outputOptions) : action unit :=
  bind (say (BundleWrite (file out))) (fun _ =>
  bind (lift (bundle_code b out)) (fun text w =>
    (World (<[file out := text]> (files w)) (log w), Normal tt))).

Definition minifyBundle (out : outputOptions) : action unit :=
  bind (readFile (file out)) (fun text =>
  outputFile (file out) (minify text minifyConfig)).

Definition build : action unit :=
  step "🚧 Building" (
    bind (say (Rollup inputConfig)) (fun _ =>
    bind (lift (rollup inputConfig)) (fun mainBundle =>
    withAllBundles (fun outputBundle => bundleWrite mainBundle outputBundle)))).

(** [main], with [process.env] as a map. *)
Definition main (env : gmap string string) : action unit :=
  bind build (fun _ =>
  if negb (truthy (env !! "PROD")) then ret tt
  else step "👶 Minifying" (withAllBundles minifyBundle)).

End Script.

(** A sample bundler and minifier, to run the script: the bundle is the
    text of its code, written as it is; minifying drops the blanks. *)
Fixpoint drop_blanks (code : string) : string :=
  match code with
  | EmptyString => EmptyString
  | String c rest =>
      if Ascii.eqb c " " then drop_blanks rest else String c (drop_blanks rest)
  end.

#[export] Instance sample_tools : Tools string := {|
  rollup := fun config => Normal ("var app = '" +:+ input config +:+ "';");
  bundle_code := fun b out => Normal ("var " +:+ name out +:+ " = (function () { " +:+ b +:+ " })();");
  minify := fun code _ => drop_blanks code
|}.

(** A bundler that fails: rollup rejects because it cannot resolve the
    entry module. *)
Definition failing_tools : Tools string := {|
  rollup := fun config =>
    Throw ("Could not resolve entry module (" +:+ input config +:+ ").");
  bundle_code := fun b out => Normal b;
  minify := fun code _ => drop_blanks code
|}.

End Build.

(** * Properties *)

(** ** Strings *)

Section StringFacts.
Import JsString.

Lemma append_nil_r (s : string) : s +:+ EmptyString = s.
Proof. induction s as [|c s IH]; simpl; [done | by rewrite IH]. Qed.

Lemma append_assoc (s t u : string) : (s +:+ t) +:+ u = s +:+ t +:+ u.
Proof. induction s as [|c s IH]; simpl; [done | by rewrite IH]. Qed.

Lemma length_append (s t : string) :
  String.length (s +:+ t) = String.length s + String.length t.
Proof. induction s as [|c s IH]; simpl; [done | by rewrite IH]. Qed.

Lemma append_inv_head (p s t : string) : p +:+ s = p +:+ t -> s = t.
Proof.
  induction p as [|c p IH]; simpl; [done |].
  intros E. injection E as E. by apply IH.
Qed.

Lemma strip_prefix_app (p r : string) : strip_prefix p (p +:+ r) = Some r.
Proof.
  induction p as [|c p IH]; simpl; [done |].
  by rewrite Ascii.eqb_refl.
Qed.

Lemma strip_prefix_Some (p s r : string) :
  strip_prefix p s = Some r -> s = p +:+ r.
Proof.
  revert s. induction p as [|c p IH]; intros s; simpl.
  - by intros [= ->].
  - destruct s as [|d s]; [done |].
    destruct (Ascii.eqb_spec c d) as [->|]; [|done].
    intros E. by rewrite (IH _ E).
Qed.

(** [indexOf_split] finds an occurrence. *)
Lemma indexOf_split_Some (pat s before after : string) :
  indexOf_split pat s = Some (before, after) ->
  s = before +:+ pat +:+ after.
Proof.
  revert before. induction s as [|c s IH]; intros before; simpl.
  - destruct (strip_prefix pat EmptyString) as [r|] eqn:E; [|done].
    intros [= <- <-]. exact (strip_prefix_Some _ _ _ E).
  - destruct (strip_prefix pat (String c s)) as [r|] eqn:E.
    + intros [= <- <-]. exact (strip_prefix_Some _ _ _ E).
    + destruct (indexOf_split pat s) as [[b a]|]; [|done].
      intros [= <- <-]. simpl. by rewrite <- (IH b).
Qed.

(** ... and the occurrence it finds is the first one. *)
Lemma indexOf_split_first (pat s before after : string) :
  indexOf_split pat s = Some (before, after) ->
  forall b a, s = b +:+ pat +:+ a -> String.length before <= String.length b.
Proof.
  revert before. induction s as [|c s IH]; intros before; simpl.
  - destruct (strip_prefix pat EmptyString); [|done].
    intros [= <- <-] b a _. simpl. lia.
  - destruct (strip_prefix pat (String c s)) as [r|] eqn:E.
    + intros [= <- <-] b a _. simpl. lia.
    + destruct (indexOf_split pat s) as [[b0 a0]|] eqn:E0; [|done].
      intros [= <- <-] b a Hs.
      destruct b as [|d b].
      * simpl in Hs. rewrite Hs, strip_prefix_app in E. done.
      * simpl in Hs. injection Hs as -> ->. simpl.
        specialize (IH b0 eq_refl b a eq_refl). lia.
Qed.

(** [indexOf_split] misses no occurrence. *)
Lemma indexOf_split_None (pat s : string) :
  indexOf_split pat s = None ->
  forall b a, s <> b +:+ pat +:+ a.
Proof.
  induction s as [|c s IH]; simpl.
  - destruct (strip_prefix pat EmptyString) eqn:E; [done |].
    intros _ b a Hs. destruct b; [|done].
    simpl in Hs. by rewrite Hs, strip_prefix_app in E.
  - destruct (strip_prefix pat (String c s)) eqn:E; [done |].
    destruct (indexOf_split pat s) as [[b0 a0]|] eqn:E0; [done |].
    intros _ b a Hs. destruct b as [|d b].
    + simpl in Hs. by rewrite Hs, strip_prefix_app in E.
    + simpl in Hs. injection Hs as -> ->. by eapply IH.
Qed.

Lemma indexOf_split_occurs (pat b a : string) :
  exists before after, indexOf_split pat (b +:+ pat +:+ a) = Some (before, after).
Proof.
  destruct (indexOf_split pat (b +:+ pat +:+ a)) as [[b0 a0]|] eqn:E; [eauto |].
  by destruct (indexOf_split_None _ _ E b a).
Qed.

Lemma capture_nil (n : nat) : capture [] n = None.
Proof. by destruct n. Qed.

(** Without captures and without such a pattern the replacement text is
    taken as it is. *)
Lemma getSubstitution_literal (matched before after t : string) :
  hasReplacementPattern t = false ->
  getSubstitution matched before after [] t = t.
Proof.
  induction t as [|c t1 IH]; [done |].
  intros Hp. simpl in Hp. apply orb_false_iff in Hp as [Hc Ht].
  specialize (IH Ht). cbn [getSubstitution].
  destruct (Ascii.eqb c "$") eqn:Ec; simpl; [|by rewrite IH].
  destruct t1 as [|d t2]; [done |].
  simpl in Hc. apply orb_false_iff in Hc as [Hc H4].
  apply orb_false_iff in Hc as [Hc H3].
  apply orb_false_iff in Hc as [H1 H2].
  rewrite H1, H2, H3, H4.
  assert (Hone :
    match digit_of d with
    | Some n =>
        match capture [] n with
        | Some cap => cap +:+ getSubstitution matched before after [] t2
        | None => String c (getSubstitution matched before after [] (String d t2))
        end
    | None => String c (getSubstitution matched before after [] (String d t2))
    end = String c (String d t2)).
  { destruct (digit_of d); [rewrite capture_nil|]; by rewrite IH. }
  destruct t2 as [|e t3]; [exact Hone |].
  destruct (digit_of d) as [n|] eqn:Ed; [|exact Hone].
  destruct (digit_of e) as [m|]; [|exact Hone].
  rewrite capture_nil. exact Hone.
Qed.

End StringFacts.

(** ** The matcher *)

Section RegExpFacts.
Import JsString JsRegExp.

Lemma consumed_length (p r : string) :
  consumed (p +:+ r) (String.length p) = p.
Proof. induction p as [|c p IH]; simpl; [by destruct r | by rewrite IH]. Qed.

Lemma consumed_app (p r : string) :
  consumed (p +:+ r) (String.length (p +:+ r) - String.length r) = p.
Proof.
  rewrite length_append.
  replace (String.length p + String.length r - String.length r)
    with (String.length p) by lia.
  apply consumed_length.
Qed.

Lemma chr_eq_false (a b : ascii) : chr_eq false a b = Ascii.eqb a b.
Proof. reflexivity. Qed.

Lemma strip_lit_false (p s : string) : strip_lit false p s = strip_prefix p s.
Proof.
  revert s. induction p as [|a p IH]; intros s; simpl; [done |].
  destruct s as [|b s]; [done |]. rewrite chr_eq_false.
  by destruct (Ascii.eqb a b).
Qed.

Lemma strip_lit_suffix (ci : bool) (p s rest : string) :
  strip_lit ci p s = Some rest -> exists q, s = q +:+ rest.
Proof.
  revert s. induction p as [|a p IH]; intros s; simpl.
  - intros [= ->]. by exists EmptyString.
  - destruct s as [|b s]; [done |].
    destruct (chr_eq ci a b); [|done].
    intros E. destruct (IH _ E) as [q ->]. by exists (String b q).
Qed.

(** A continuation is only ever called on a suffix of the input. *)
Lemma star_suffix {R : Type} (ci : bool) (a : atom) (k : cont (R := R))
    (caps : list string) (s : string) (res : R) :
  star ci a k caps s = Some res ->
  exists p rest, s = p +:+ rest /\ k caps rest = Some res.
Proof.
  induction s as [|c s IH]; simpl.
  - intros E. by exists EmptyString, EmptyString.
  - destruct (atom_matches ci a c).
    + destruct (star ci a k caps s) as [r|] eqn:E.
      * intros [= ->]. destruct (IH eq_refl) as (p & rest & -> & Hk).
        by exists (String c p), rest.
      * intros Hk. by exists EmptyString, (String c s).
    + intros Hk. by exists EmptyString, (String c s).
Qed.

Lemma rmatch_suffix {R : Type} (ci : bool) (r : regex) :
  forall (k : cont (R := R)) (caps : list string) (s : string) (res : R),
  rmatch ci r k caps s = Some res ->
  exists caps' p rest, s = p +:+ rest /\ k caps' rest = Some res.
Proof.
  induction r as [a|lit|r1 IH1 r2 IH2|r1 IH1 r2 IH2|a|a|a|r1 IH1];
    intros k caps s res; simpl.
  - destruct s as [|c s]; [done |].
    destruct (atom_matches ci a c); [|done].
    intros Hk. by exists caps, (String c EmptyString), s.
  - destruct (strip_lit ci lit s) as [rest|] eqn:E; [|done].
    intros Hk. destruct (strip_lit_suffix _ _ _ _ E) as [q ->].
    by exists caps, q, rest.
  - intros E. destruct (IH1 _ _ _ _ E) as (caps1 & p1 & rest1 & -> & E1).
    destruct (IH2 _ _ _ _ E1) as (caps2 & p2 & rest2 & -> & E2).
    exists caps2, (p1 +:+ p2), rest2. by rewrite append_assoc.
  - destruct (rmatch ci r1 k caps s) as [r|] eqn:E.
    + intros [= ->]. by apply (IH1 _ _ _ _ E).
    + apply IH2.
  - intros E. destruct (star_suffix _ _ _ _ _ _ E) as (p & rest & -> & Hk).
    by exists caps, p, rest.
  - destruct s as [|c s]; [done |].
    destruct (atom_matches ci a c); [|done].
    intros E. destruct (star_suffix _ _ _ _ _ _ E) as (p & rest & -> & Hk).
    by exists caps, (String c p), rest.
  - destruct s as [|c s].
    + intros Hk. by exists caps, EmptyString, EmptyString.
    + destruct (atom_matches ci a c).
      * destruct (k caps s) as [r|] eqn:E.
        -- intros [= ->]. by exists caps, (String c EmptyString), s.
        -- intros Hk. by exists caps, EmptyString, (String c s).
      * intros Hk. by exists caps, EmptyString, (String c s).
  - intros E. destruct (IH1 _ _ _ _ E) as (caps1 & p1 & rest1 & -> & E1).
    eauto.
Qed.

(** What [match_here] returns splits the input. *)
Lemma match_here_split (ci : bool) (r : regex) (s text : string)
    (caps : list string) (rest : string) :
  match_here ci r s = Some (text, caps, rest) -> s = text +:+ rest.
Proof.
  unfold match_here. intros E.
  destruct (rmatch_suffix _ _ _ _ _ _ E) as (caps' & p & rest' & -> & Hk).
  rewrite consumed_app in Hk. by injection Hk as <- _ <-.
Qed.

(** [exec] returns a match ... *)
Lemma exec_Some (ci : bool) (r : regex) (s : string) (m : match_result) :
  exec ci r s = Some m ->
  s = m_before m +:+ m_text m +:+ m_after m /\
  match_here ci r (m_text m +:+ m_after m)
    = Some (m_text m, m_captures m, m_after m).
Proof.
  revert m. induction s as [|c s IH]; intros m; simpl.
  - destruct (match_here ci r EmptyString) as [[[t cs] rest]|] eqn:E; [|done].
    intros [= <-]. simpl. pose proof (match_here_split _ _ _ _ _ _ E) as Hs.
    split; [done |]. by rewrite <- Hs.
  - destruct (match_here ci r (String c s)) as [[[t cs] rest]|] eqn:E.
    + intros [= <-]. simpl. pose proof (match_here_split _ _ _ _ _ _ E) as Hs.
      split; [done |]. by rewrite <- Hs.
    + destruct (exec ci r s) as [m0|]; [|done].
      intros [= <-]. simpl. destruct (IH m0 eq_refl) as [Hs Hm].
      split; [by rewrite <- Hs | done].
Qed.

(** ... the leftmost one ... *)
Lemma exec_first (ci : bool) (r : regex) (s : string) (m : match_result) :
  exec ci r s = Some m ->
  forall b q, s = b +:+ q -> match_here ci r q <> None ->
  String.length (m_before m) <= String.length b.
Proof.
  revert m. induction s as [|c s IH]; intros m; simpl.
  - destruct (match_here ci r EmptyString) as [[[t cs] rest]|]; [|done].
    intros [= <-] b q _ _. simpl. lia.
  - destruct (match_here ci r (String c s)) as [[[t cs] rest]|] eqn:E.
    + intros [= <-] b q _ _. simpl. lia.
    + destruct (exec ci r s) as [m0|]; [|done].
      intros [= <-] b q Hs Hq. simpl. destruct b as [|d b].
      * simpl in Hs. subst q. done.
      * simpl in Hs. injection Hs as -> ->.
        specialize (IH m0 eq_refl b q eq_refl Hq). simpl. lia.
Qed.

(** ... and returns one whenever there is one. *)
Lemma exec_None (ci : bool) (r : regex) (s : string) :
  exec ci r s = None ->
  forall b q, s = b +:+ q -> match_here ci r q = None.
Proof.
  induction s as [|c s IH]; simpl.
  - destruct (match_here ci r EmptyString) as [[[t cs] rest]|] eqn:E; [done |].
    intros _ b q Hs. destruct b; [|done]. simpl in Hs. by subst q.
  - destruct (match_here ci r (String c s)) as [[[t cs] rest]|] eqn:E; [done |].
    destruct (exec ci r s) as [m0|] eqn:E0; [done |].
    intros _ b q Hs. destruct b as [|d b].
    + simpl in Hs. by subst q.
    + simpl in Hs. injection Hs as -> ->. by apply (IH eq_refl b).
Qed.

End RegExpFacts.

(** ** The HTML patches *)

Section PatchFacts.
Import JsValue JsString JsRegExp Widget.

Lemma lacks_nil (c : ascii) : lacks c EmptyString.
Proof. intros [|d x] y; simpl; done. Qed.

Lemma lacks_cons (c d : ascii) (s : string) :
  lacks c (String d s) <-> d <> c /\ lacks c s.
Proof.
  split.
  - intros Hl. split.
    + intros ->. by apply (Hl EmptyString s).
    + intros x y ->. by apply (Hl (String d x) y).
  - intros [Hd Hl] [|e x] y; simpl; intros [= E1 E2]; [done |].
    by apply (Hl x y).
Qed.

Lemma notgt_matches (c : ascii) :
  atom_matches false (NoneOf ">") c = negb (Ascii.eqb ">" c).
Proof. simpl. by rewrite chr_eq_false, orb_false_r. Qed.

(** [[^>]*] before something that needs a [>] next: the run up to the next
    [>] is taken, whole. *)
Lemma star_notgt_intro {R : Type} (k : cont (R := R)) (caps : list string)
    (run rest : string) :
  lacks ">" run ->
  (forall c s', c <> ">"%char -> k caps (String c s') = None) ->
  star false (NoneOf ">") k caps (run +:+ String ">" rest)
    = k caps (String ">" rest).
Proof.
  intros Hl Hk. induction run as [|c run IH].
  - cbn [String.append star]. by rewrite notgt_matches, Ascii.eqb_refl.
  - apply lacks_cons in Hl as [Hc Hl]. specialize (IH Hl).
    cbn [String.append star]. rewrite notgt_matches.
    destruct (Ascii.eqb_spec ">" c) as [<-|_]; [done |]. simpl.
    rewrite IH. destruct (k caps (String ">" rest)); [done |].
    by apply Hk.
Qed.

Lemma star_notgt_inv {R : Type} (k : cont (R := R)) (caps : list string)
    (s : string) (res : R) :
  (forall c s', c <> ">"%char -> k caps (String c s') = None) ->
  star false (NoneOf ">") k caps s = Some res ->
  exists run rest, s = run +:+ rest /\ lacks ">" run /\ k caps rest = Some res.
Proof.
  intros Hk. induction s as [|c s IH]; cbn [star].
  - intros E. exists EmptyString, EmptyString. eauto using lacks_nil.
  - rewrite notgt_matches. destruct (Ascii.eqb_spec ">" c) as [<-|Hc]; simpl.
    + intros E. exists EmptyString, (String ">" s). eauto using lacks_nil.
    + destruct (star false (NoneOf ">") k caps s) as [r|].
      * intros [= ->]. destruct (IH eq_refl) as (run & rest & -> & Hl & E).
        exists (String c run), rest. split_and!; [done | | done].
        apply lacks_cons. split; [congruence | done].
      * rewrite Hk by congruence. done.
Qed.

(** The matcher run on the pattern of [setBodyAmpStoryVisible]. *)
Lemma body_match_here_eq (s : string) :
  match_here false bodyRe s =
  match strip_prefix "<" s with
  | Some s1 =>
      match strip_prefix "body" s1 with
      | Some s2 =>
          star false (NoneOf ">")
            (fun caps' rest1 =>
               match strip_prefix ">" rest1 with
               | Some rest2 =>
                   Some (consumed s (String.length s - String.length rest2),
                         caps' ++ [consumed s1 (String.length s1 - String.length rest1)],
                         rest2)
               | None => None
               end)
            [] s2
      | None => None
      end
  | None => None
  end.
Proof. reflexivity. Qed.

Lemma body_cont_fails (s s1 : string) (caps : list string) (c : ascii) (s' : string) :
  c <> ">"%char ->
  match strip_prefix ">" (String c s') with
  | Some rest2 =>
      Some (consumed s (String.length s - String.length rest2),
            caps ++ [consumed s1 (String.length s1 - String.length (String c s'))],
            rest2)
  | None => None
  end = None.
Proof.
  intros Hc. cbn [strip_prefix].
  destruct (Ascii.eqb_spec ">" c); [congruence | done].
Qed.

(** The pattern of [setBodyAmpStoryVisible] matches a [<body] tag up to its
    [>], and captures what stands between [<] and [>]. *)
Lemma body_match_intro (attrs rest : string) :
  lacks ">" attrs ->
  match_here false bodyRe ("<body" +:+ attrs +:+ String ">" rest)
    = Some ("<body" +:+ attrs +:+ ">", ["body" +:+ attrs], rest).
Proof.
  intros Hl. rewrite body_match_here_eq.
  change ("<body" +:+ attrs +:+ String ">" rest)
    with ("<" +:+ "body" +:+ attrs +:+ String ">" rest).
  rewrite strip_prefix_app.
  rewrite strip_prefix_app.
  rewrite star_notgt_intro; [| done | intros; by apply body_cont_fails].
  change (strip_prefix ">" (String ">" rest)) with (Some rest).
  cbn [app]. do 3 f_equal.
  - replace ("<" +:+ "body" +:+ attrs +:+ String ">" rest)
      with (("<body" +:+ attrs +:+ ">") +:+ rest).
    + apply consumed_app.
    + simpl. by rewrite append_assoc.
  - f_equal.
    replace ("body" +:+ attrs +:+ String ">" rest)
      with (("body" +:+ attrs) +:+ String ">" rest) by (by rewrite append_assoc).
    apply consumed_app.
Qed.

Lemma body_match_inv (s text : string) (caps : list string) (rest : string) :
  match_here false bodyRe s = Some (text, caps, rest) ->
  exists attrs,
    lacks ">" attrs /\ s = "<body" +:+ attrs +:+ String ">" rest.
Proof.
  rewrite body_match_here_eq.
  destruct (strip_prefix "<" s) as [s1|] eqn:E1; [|done].
  destruct (strip_prefix "body" s1) as [s2|] eqn:E2; [|done].
  apply strip_prefix_Some in E1 as ->. apply strip_prefix_Some in E2 as ->.
  intros E. apply star_notgt_inv in E as (run & rest1 & -> & Hl & E);
    [| intros; by apply body_cont_fails].
  destruct (strip_prefix ">" rest1) as [rest2|] eqn:E3; [|done].
  apply strip_prefix_Some in E3 as ->. injection E as _ _ ->.
  by exists run.
Qed.

(** [setBodyAmpStoryVisible] on a document with a [<body ...>] tag: the
    attribute goes before the [>] of the first such tag, and nothing else
    changes. *)
Lemma setBodyAmpStoryVisible_tag (docStr pre attrs0 post : string) :
  docStr = pre +:+ "<body" +:+ attrs0 +:+ ">" +:+ post ->
  lacks ">" attrs0 ->
  exists before attrs after,
    docStr = before +:+ "<body" +:+ attrs +:+ ">" +:+ after /\
    lacks ">" attrs /\
    (forall pre' attrs' post',
       docStr = pre' +:+ "<body" +:+ attrs' +:+ ">" +:+ post' ->
       lacks ">" attrs' ->
       String.length before <= String.length pre') /\
    setBodyAmpStoryVisible docStr
      = before +:+ "<body" +:+ attrs +:+ " amp-story-visible>" +:+ after.
Proof.
  intros Hdoc Hl0. unfold setBodyAmpStoryVisible, JsRegExp.replace.
  destruct (exec false bodyRe docStr) as [m|] eqn:E.
  - destruct (exec_Some _ _ _ _ E) as [Hs Hm].
    destruct (body_match_inv _ _ _ _ Hm) as (attrs & Hl & Ht).
    pose proof (body_match_intro attrs (m_after m) Hl) as Hi.
    rewrite <- Ht, Hm in Hi. injection Hi as Htext Hcaps.
    exists (m_before m), attrs, (m_after m). split_and!.
    + by rewrite Hs, Ht.
    + done.
    + intros pre' attrs' post' Hd' Hl'.
      apply (exec_first _ _ _ _ E pre' ("<body" +:+ attrs' +:+ ">" +:+ post'));
        [done |].
      change ("<body" +:+ attrs' +:+ ">" +:+ post')
        with ("<body" +:+ attrs' +:+ String ">" post').
      by rewrite body_match_intro.
    + rewrite Hcaps.
      change (getSubstitution (m_text m) (m_before m) (m_after m)
                ["body" +:+ attrs] "<$1 amp-story-visible>")
        with ("<body" +:+ attrs +:+ " amp-story-visible>").
      f_equal. simpl. by rewrite append_assoc.
  - exfalso.
    pose proof (exec_None _ _ _ E pre ("<body" +:+ attrs0 +:+ ">" +:+ post) Hdoc)
      as Hn.
    change ("<body" +:+ attrs0 +:+ ">" +:+ post)
      with ("<body" +:+ attrs0 +:+ String ">" post) in Hn.
    by rewrite body_match_intro in Hn.
Qed.

(** [setBodyAmpStoryVisible] on a document without a [<body ...>] tag. *)
Lemma setBodyAmpStoryVisible_no_tag (docStr : string) :
  (forall pre attrs post,
     lacks ">" attrs -> docStr <> pre +:+ "<body" +:+ attrs +:+ ">" +:+ post) ->
  setBodyAmpStoryVisible docStr = docStr.
Proof.
  intros Hno. unfold setBodyAmpStoryVisible, JsRegExp.replace.
  destruct (exec false bodyRe docStr) as [m|] eqn:E; [|done].
  destruct (exec_Some _ _ _ _ E) as [Hs Hm].
  destruct (body_match_inv _ _ _ _ Hm) as (attrs & Hl & Ht).
  destruct (Hno (m_before m) attrs (m_after m) Hl).
  by rewrite Hs, Ht.
Qed.

End PatchFacts.

(** ** Patching at the anchors *)

Section AnchorFacts.
Import JsValue JsString JsRegExp Widget.

(** A string pattern that occurs is replaced at its first occurrence ... *)
Lemma replace_occurs (s pat repl b a : string) :
  s = b +:+ pat +:+ a ->
  exists before after,
    s = before +:+ pat +:+ after /\
    (forall b' a', s = b' +:+ pat +:+ a' ->
       String.length before <= String.length b') /\
    JsString.replace s pat repl
      = before +:+ getSubstitution pat before after [] repl +:+ after.
Proof.
  intros ->. unfold JsString.replace.
  destruct (indexOf_split_occurs pat b a) as (before & after & E).
  rewrite E. exists before, after. split_and!.
  - exact (indexOf_split_Some _ _ _ _ E).
  - exact (indexOf_split_first _ _ _ _ E).
  - done.
Qed.

(** ... and a string without the pattern is returned as it is. *)
Lemma replace_absent (s pat repl : string) :
  (forall b a, s <> b +:+ pat +:+ a) -> JsString.replace s pat repl = s.
Proof.
  intros Hno. unfold JsString.replace.
  destruct (indexOf_split pat s) as [[before after]|] eqn:E; [|done].
  by destruct (Hno before after (indexOf_split_Some _ _ _ _ E)).
Qed.

Lemma addScriptToHead_occurs (docStr headContent b a : string) :
  docStr = b +:+ "<head>" +:+ a ->
  hasReplacementPattern headContent = false ->
  exists before after,
    docStr = before +:+ "<head>" +:+ after /\
    (forall b' a', docStr = b' +:+ "<head>" +:+ a' ->
       String.length before <= String.length b') /\
    addScriptToHead docStr headContent
      = before +:+ "<head>" +:+ headContent +:+ after.
Proof.
  intros Hdoc Hplain. unfold addScriptToHead.
  destruct (replace_occurs docStr "<head>" ("<head>" +:+ headContent) b a Hdoc)
    as (before & after & Hs & Hfirst & Hr).
  exists before, after. split_and!; [done.. |].
  rewrite Hr, getSubstitution_literal by exact Hplain.
  by rewrite append_assoc.
Qed.

Lemma addScriptToHead_absent (docStr headContent : string) :
  (forall b a, docStr <> b +:+ "<head>" +:+ a) ->
  addScriptToHead docStr headContent = docStr.
Proof. apply replace_absent. Qed.

End AnchorFacts.

(** ** Running the jobs *)

Section JobFacts.
Import JsValue JsString JsRegExp Widget.
Context `{Browser}.

Lemma event_loop_nil (f : nat) (st : state) : event_loop f [] st = ([], st).
Proof. by destruct f. Qed.

Lemma event_loop_ready (f : nat) (n : name) (w : wait) (k : proc)
    (rest : list task) (st : state) (r : list task * state) :
  ready w st = true ->
  event_loop f (rest ++ snd (run_job n k st)) (fst (run_job n k st)) = r ->
  event_loop (S f) ((n, w, k) :: rest) st = r.
Proof. intros Hr <-. simpl. rewrite Hr. by destruct (run_job n k st). Qed.

Lemma event_loop_wait (f : nat) (n : name) (w : wait) (k : proc)
    (rest : list task) (st : state) (r : list task * state) :
  ready w st = false ->
  event_loop f (rest ++ [(n, w, k)]) st = r ->
  event_loop (S f) ((n, w, k) :: rest) st = r.
Proof. intros Hr <-. simpl. by rewrite Hr. Qed.

(** One turn of the event loop on a queue whose jobs are written out. *)
Ltac job :=
  first
    [ apply event_loop_ready;
      [ cbv [ready is_settled settled existsb promise_eqb orb];
        first [reflexivity | assumption]
      | ]
    | apply event_loop_wait; [ reflexivity | ] ];
  cbv [run_job app fst snd awaitSelect writeStory writeAd say emit settle
       setStoryDoc set_storyDoc storyDoc settled storyFrame adFrame ctaLink log].

(** What the constructor's jobs do, all of them, within the fuel. *)
Lemma constructor_run (sd : string) :
  let st0 := State sd [] None None (Link None EmptyString) [] in
  event_loop fuel (snd (run_job (Method "constructor") constructorBody st0))
    (fst (run_job (Method "constructor") constructorBody st0))
  = ([],
     State sd [StoryCtaLink; AdIframe; StoryIframe]
       (Some (patchOuter sd "page-1")) None (Link None EmptyString)
       [ Fulfilled (Chain StoryCtaLink); Selected ".i-amphtml-story-ad-link";
         Fulfilled (Chain AdIframe); Selected "iframe";
         Fulfilled (Chain StoryIframe); Loaded;
         WroteStory (patchOuter sd "page-1"); Loaded; Attached;
         Fulfilled (Method "constructor"); Rendered ]).
Proof.
  intros st0. subst st0. unfold fuel, constructorBody, storyIframeChain.
  cbv [run_job app fst snd awaitSelect writeStory writeAd say emit settle
       setStoryDoc set_storyDoc storyDoc settled storyFrame adFrame ctaLink log].
  do 9 job. apply event_loop_nil.
Qed.

(** [updateInner] on an idle widget: the story document is written again
    and loaded, the ad iframe is looked up, the link is written, and (when
    that did not throw) the ad document is written. *)
Lemma updateInner_run (dirty : string) (sw : bool) (sd : string)
    (se : list promise) (sf af : option string) (cl : link) (lg : list event) :
  idle (State sd se sf af cl lg) ->
  call_result (UpdateInner dirty sw) (State sd se sf af cl lg) =
  ([],
   let story := if sw then patchOuter sd "page-1" else storyCssPatch sd in
   let lg1 := Selected "iframe" :: Loaded :: WroteStory story :: lg in
   match setMetaCtaLink dirty cl with
   | (l, Normal _) =>
       State sd se (Some story) (Some (patch dirty)) l
         (Fulfilled (Method "updateInner") :: WroteAd (patch dirty)
          :: SetText (textContent l) :: SetHref (to_string (href l)) :: lg1)
   | (l, Throw msg) =>
       State sd se (Some story) af l
         (Rejected (Method "updateInner") msg
          :: SetHref (to_string (href l)) :: lg1)
   end).
Proof.
  intros (Hs & Ha & Hc). unfold is_settled in *. simpl in Hs, Ha, Hc.
  unfold call_result, invoke, fuel.
  cbv [call_name call_body updateInner run_job app awaitSelect].
  do 6 job. unfold setMetaCtaLinkStmt.
  cbv [storyDoc settled storyFrame adFrame ctaLink log].
  destruct (setMetaCtaLink dirty cl) as [l [[]|msg]].
  - cbv [app fst snd]. job. apply event_loop_nil.
  - cbv [app fst snd emit storyDoc settled storyFrame adFrame ctaLink log].
    apply event_loop_nil.
Qed.

(** [updateOuter] on an idle widget: its own promise is fulfilled when the
    ad iframe has been looked up; the inner update it started runs after
    that. *)
Lemma updateOuter_run (dirty dirtyInner : string) (sw : bool) (sd : string)
    (se : list promise) (sf af : option string) (cl : link) (lg : list event) :
  idle (State sd se sf af cl lg) ->
  call_result (UpdateOuter dirty dirtyInner sw) (State sd se sf af cl lg) =
  ([],
   let lg0 :=
     Fulfilled (Method "updateOuter") :: Selected "iframe" ::
     (if sw then Loaded :: WroteStory (patchOuter dirty "cover") :: lg
      else lg) in
   let story := storyCssPatch dirty in
   let lg1 := Selected "iframe" :: Loaded :: WroteStory story :: lg0 in
   match setMetaCtaLink dirtyInner cl with
   | (l, Normal _) =>
       State dirty se (Some story) (Some (patch dirtyInner)) l
         (Fulfilled (Method "updateInner") :: WroteAd (patch dirtyInner)
          :: SetText (textContent l) :: SetHref (to_string (href l)) :: lg1)
   | (l, Throw msg) =>
       State dirty se (Some story) af l
         (Rejected (Method "updateInner") msg
          :: SetHref (to_string (href l)) :: lg1)
   end).
Proof.
  intros (Hs & Ha & Hc). unfold is_settled in *. simpl in Hs, Ha, Hc.
  unfold call_result, invoke, fuel.
  assert (Hinner : forall f sf0 lg0,
    event_loop (S (S (S (S (S (S (S (S (S f)))))))))
      [(Method "updateInner", On StoryIframe,
        Sync (writeStory (fun st => storyCssPatch (storyDoc st)))
          (Await (On StoryIframe)
             (Await Browser_event
                (Sync (say Loaded)
                   (awaitSelect "iframe"
                      (Await Tick
                         (Await (On StoryCtaLink)
                            (Sync (setMetaCtaLinkStmt dirtyInner)
                               (Await Tick
                                  (Sync (writeAd (patch dirtyInner))
                                     Return))))))))))]
      (State dirty se sf0 af cl lg0)
    = ([],
       let story := storyCssPatch dirty in
       let lg1 := Selected "iframe" :: Loaded :: WroteStory story :: lg0 in
       match setMetaCtaLink dirtyInner cl with
       | (l, Normal _) =>
           State dirty se (Some story) (Some (patch dirtyInner)) l
             (Fulfilled (Method "updateInner") :: WroteAd (patch dirtyInner)
              :: SetText (textContent l) :: SetHref (to_string (href l)) :: lg1)
       | (l, Throw msg) =>
           State dirty se (Some story) af l
             (Rejected (Method "updateInner") msg
              :: SetHref (to_string (href l)) :: lg1)
       end)).
  { intros f sf0 lg0. cbv [awaitSelect]. do 6 job.
    unfold setMetaCtaLinkStmt.
    cbv [storyDoc settled storyFrame adFrame ctaLink log].
    destruct (setMetaCtaLink dirtyInner cl) as [l [[]|msg]].
    - cbv [app fst snd]. job. apply event_loop_nil.
    - cbv [app fst snd emit storyDoc settled storyFrame adFrame ctaLink log].
      apply event_loop_nil. }
  destruct sw;
    cbv [call_name call_body updateOuter updateInner run_job app awaitSelect
         setStoryDoc set_storyDoc storyDoc settled storyFrame adFrame ctaLink log fst snd].
  - do 5 job. apply Hinner.
  - do 2 job. apply Hinner.
Qed.

(** [updateInner] called as soon as the constructor has returned: the
    update waits for the story document, then runs as on an idle widget. *)
Lemma early_updateInner_run (dirty : string) (sw : bool) (sd : string) :
  let st0 := State sd [] None None (Link None EmptyString) [] in
  let q0 := snd (run_job (Method "constructor") constructorBody st0) in
  let st1 := fst (run_job (Method "constructor") constructorBody st0) in
  event_loop fuel
    (q0 ++ snd (run_job (Method "updateInner") (updateInner dirty sw) st1))
    (fst (run_job (Method "updateInner") (updateInner dirty sw) st1))
  = ([],
     let story := if sw then patchOuter sd "page-1" else storyCssPatch sd in
     let lg1 :=
       [ Selected "iframe"; Loaded; WroteStory story;
         Fulfilled (Chain StoryCtaLink); Selected ".i-amphtml-story-ad-link";
         Fulfilled (Chain AdIframe); Selected "iframe";
         Fulfilled (Chain StoryIframe); Loaded;
         WroteStory (patchOuter sd "page-1"); Loaded; Attached;
         Fulfilled (Method "constructor"); Rendered ] in
     match setMetaCtaLink dirty (Link None EmptyString) with
     | (l, Normal _) =>
         State sd [StoryCtaLink; AdIframe; StoryIframe] (Some story)
           (Some (patch dirty)) l
           (Fulfilled (Method "updateInner") :: WroteAd (patch dirty)
            :: SetText (textContent l) :: SetHref (to_string (href l)) :: lg1)
     | (l, Throw msg) =>
         State sd [StoryCtaLink; AdIframe; StoryIframe] (Some story) None l
           (Rejected (Method "updateInner") msg
            :: SetHref (to_string (href l)) :: lg1)
     end).
Proof.
  intros st0 q0 st1. subst st0 q0 st1.
  unfold fuel, constructorBody, storyIframeChain, updateInner.
  cbv [run_job app fst snd awaitSelect writeStory writeAd say emit settle
       setStoryDoc set_storyDoc storyDoc settled storyFrame adFrame ctaLink log].
  do 17 job. unfold setMetaCtaLinkStmt.
  cbv [storyDoc settled storyFrame adFrame ctaLink log].
  destruct (setMetaCtaLink dirty (Link None EmptyString)) as [l [[]|msg]].
  - cbv [app fst snd]. job. apply event_loop_nil.
  - cbv [app fst snd emit storyDoc settled storyFrame adFrame ctaLink log].
    apply event_loop_nil.
Qed.

End JobFacts.

(** ** The CTA descriptor *)

Section CtaFacts.
Import JsValue JsString JsRegExp Widget.
Context `{Browser}.

Lemma name_is_true (v : jsval) (s : string) :
  name_is v s = true <-> v = Some s.
Proof.
  destruct v as [n|]; simpl; [|done].
  rewrite String.eqb_eq. split; congruence.
Qed.

Lemma name_is_false (v : jsval) (s : string) :
  name_is v s = false <-> v <> Some s.
Proof.
  rewrite <- name_is_true. destruct (name_is v s); split; congruence.
Qed.

(** The loop keeps [type] while no element is named [amp-cta-type] ... *)
Lemma fold_ctaStep_type_keep (metas : list meta) (acc : jsval * jsval) :
  (forall m, m ∈ metas -> meta_name m <> Some "amp-cta-type") ->
  fst (fold_left ctaStep metas acc) = fst acc.
Proof.
  revert acc. induction metas as [|m metas IH]; intros acc Hno; [done |].
  simpl. rewrite IH by (intros m' Hm'; apply Hno; by right).
  unfold ctaStep. simpl.
  assert (Hm : name_is (meta_name m) "amp-cta-type" = false)
    by (apply name_is_false, Hno; by left).
  by rewrite Hm.
Qed.

(** ... and takes it from the last element that is. *)
Lemma fold_ctaStep_type_last (pre post : list meta) (m : meta)
    (acc : jsval * jsval) :
  meta_name m = Some "amp-cta-type" ->
  (forall m', m' ∈ post -> meta_name m' <> Some "amp-cta-type") ->
  fst (fold_left ctaStep (pre ++ m :: post) acc) = meta_content m.
Proof.
  intros Hm Hpost. rewrite fold_left_app. simpl.
  rewrite fold_ctaStep_type_keep by done.
  unfold ctaStep. simpl. apply name_is_true in Hm. by rewrite Hm.
Qed.

Lemma fold_ctaStep_url_keep (metas : list meta) (acc : jsval * jsval) :
  (forall m, m ∈ metas -> meta_name m <> Some "amp-cta-url") ->
  snd (fold_left ctaStep metas acc) = snd acc.
Proof.
  revert acc. induction metas as [|m metas IH]; intros acc Hno; [done |].
  simpl. rewrite IH by (intros m' Hm'; apply Hno; by right).
  unfold ctaStep. simpl.
  assert (Hm : name_is (meta_name m) "amp-cta-url" = false)
    by (apply name_is_false, Hno; by left).
  by rewrite Hm.
Qed.

Lemma fold_ctaStep_url_last (pre post : list meta) (m : meta)
    (acc : jsval * jsval) :
  meta_name m = Some "amp-cta-url" ->
  (forall m', m' ∈ post -> meta_name m' <> Some "amp-cta-url") ->
  snd (fold_left ctaStep (pre ++ m :: post) acc) = meta_content m.
Proof.
  intros Hm Hpost. rewrite fold_left_app. simpl.
  rewrite fold_ctaStep_url_keep by done.
  unfold ctaStep. simpl. apply name_is_true in Hm. by rewrite Hm.
Qed.

(** The [<meta>] elements [setMetaCtaLink] reads: those the browser parses
    out of the matched tags, joined by line feeds; none when nothing
    matches. *)
Lemma resolveCta_metas (docStr : string) :
  resolveCta docStr =
  fold_left ctaStep
    (match match_global true metaCtaRe docStr with
     | Some ms => parseMetas (join newline ms)
     | None => []
     end)
    (Some defaultCtaType, Some defaultCtaUrl)
  \/ match_global true metaCtaRe docStr = Some [].
Proof.
  unfold resolveCta.
  destruct (match_global true metaCtaRe docStr) as [[|m ms]|]; auto.
Qed.

Lemma match_global_nonempty (ci : bool) (r : regex) (s : string) :
  match_global ci r s <> Some [].
Proof.
  unfold match_global.
  by destruct (match_all_from (S (String.length s)) ci r s).
Qed.

Lemma assert_Normal (v : option string) (msg label : string) :
  v = Some label -> label <> EmptyString -> assert v msg = Normal label.
Proof. intros -> Hl. by destruct label. Qed.

Lemma assert_Throw (v : option string) (msg : string) :
  truthy v = false -> assert v msg = Throw msg.
Proof. by destruct v as [[|c s]|]. Qed.

(** The read of a type that is a key of the table with a label. *)
Lemma assertProperty_own (key msg label : string) :
  CTA_TYPES !! key = Some label -> label <> EmptyString ->
  assertProperty (readCtaType key) msg = Normal (StringValue label).
Proof.
  intros Hk Hl. unfold readCtaType. rewrite Hk. cbn [assertProperty].
  by rewrite (assert_Normal _ _ label).
Qed.

(** The read of a type that is no key of the table but the name of a
    property it inherits. *)
Lemma assertProperty_inherited (key msg shown : string) :
  CTA_TYPES !! key = None -> CTA_TYPES_inherited !! key = Some shown ->
  assertProperty (readCtaType key) msg = Normal (ObjectValue shown).
Proof. intros Hk Hi. unfold readCtaType. by rewrite Hk, Hi. Qed.

(** The read of a type that is neither. *)
Lemma assertProperty_absent (key msg : string) :
  CTA_TYPES !! key = None -> CTA_TYPES_inherited !! key = None ->
  assertProperty (readCtaType key) msg = Throw msg.
Proof. intros Hk Hi. unfold readCtaType. by rewrite Hk, Hi. Qed.

(** An assertion that fails throws its own message. *)
Lemma assertProperty_Throw (v : option property) (msg msg' : string) :
  assertProperty v msg = Throw msg' -> msg' = msg.
Proof.
  destruct v as [[[|c s]|shown]|]; cbn [assertProperty assert]; congruence.
Qed.

End CtaFacts.

(** * The claims *)

Section CtaClaims.
Import JsValue JsString JsRegExp Widget.
Context `{Browser}.


(** C4, on the code.  [CTA_TYPES[type]] also finds what the table inherits:
    when the resolved type is no key of [CTA_TYPES] but the name of a
    property the table inherits, [setMetaCtaLink] does not throw; it
    completes, and the link's text becomes the string of the inherited
    function or object. *)
Theorem setMetaCtaLink_passes_inherited (docStr : string) (ctaLink : link)
    (shown : string) :
  let type := to_string (fst (resolveCta docStr)) in
  CTA_TYPES !! type = None ->
  CTA_TYPES_inherited !! type = Some shown ->
  setMetaCtaLink docStr ctaLink
    = (Link (Some (to_string (snd (resolveCta docStr)))) shown, Normal tt).
Proof.
  intros type Hown Hinh. subst type. unfold setMetaCtaLink.
  destruct (resolveCta docStr) as [t u]. cbn [fst snd] in *.
  by rewrite (assertProperty_inherited _ _ shown).
Qed.

(** When [setMetaCtaLink] throws.  With a table whose labels are not
    empty, [setMetaCtaLink] throws exactly when the resolved type is
    neither a key of [CTA_TYPES] nor the name of a property the table
    inherits; the error is then ['Unknown CTA type ' + type].  With a type
    that is a key, and with one that names an inherited property, the call
    completes. *)
Theorem setMetaCtaLink_throws_iff (docStr : string) (ctaLink : link) :
  (forall k label, CTA_TYPES !! k = Some label -> label <> EmptyString) ->
  let type := to_string (fst (resolveCta docStr)) in
  ((exists msg, snd (setMetaCtaLink docStr ctaLink) = Throw msg)
   <-> CTA_TYPES !! type = None /\ CTA_TYPES_inherited !! type = None) /\
  (CTA_TYPES !! type = None -> CTA_TYPES_inherited !! type = None ->
   snd (setMetaCtaLink docStr ctaLink) = Throw ("Unknown CTA type " +:+ type)) /\
  (is_Some (CTA_TYPES !! type) ->
   snd (setMetaCtaLink docStr ctaLink) = Normal tt) /\
  (is_Some (CTA_TYPES_inherited !! type) ->
   snd (setMetaCtaLink docStr ctaLink) = Normal tt).
Proof.
  intros Hlabels type. subst type. unfold setMetaCtaLink.
  destruct (resolveCta docStr) as [t u]. cbn [fst snd].
  destruct (CTA_TYPES !! to_string t) as [label|] eqn:E.
  - rewrite (assertProperty_own _ _ label) by eauto. cbn [snd]. split_and!.
    + split; [by intros [msg ?] | by intros [? _]].
    + done.
    + done.
    + done.
  - destruct (CTA_TYPES_inherited !! to_string t) as [shown|] eqn:Ei.
    + rewrite (assertProperty_inherited _ _ shown) by done. cbn [snd].
      split_and!.
      * split; [by intros [msg ?] | by intros [_ ?]].
      * done.
      * by intros [? ?].
      * done.
    + rewrite assertProperty_absent by done. cbn [snd]. split_and!.
      * split; [done | by eexists].
      * done.
      * by intros [? ?].
      * by intros [? ?].
Qed.

(** C10.  When [setMetaCtaLink] throws, the link's [href] has been set to
    the resolved url all the same, and its text is as it was. *)
Theorem setMetaCtaLink_not_atomic (docStr : string) (ctaLink : link)
    (msg : string) :
  snd (setMetaCtaLink docStr ctaLink) = Throw msg ->
  href (fst (setMetaCtaLink docStr ctaLink))
    = Some (to_string (snd (resolveCta docStr))) /\
  textContent (fst (setMetaCtaLink docStr ctaLink)) = textContent ctaLink /\
  forall st, ctaLink = Widget.ctaLink st ->
    setMetaCtaLinkStmt docStr st
    = (State (storyDoc st) (settled st) (storyFrame st) (adFrame st)
         (Link (Some (to_string (snd (resolveCta docStr)))) (textContent ctaLink))
         (SetHref (to_string (snd (resolveCta docStr))) :: log st),
       Throw msg).
Proof.
  unfold setMetaCtaLinkStmt, setMetaCtaLink.
  destruct (resolveCta docStr) as [t u]. cbn [fst snd].
  destruct (assertProperty _ _) as [label|msg']; cbn [fst snd]; [done |].
  intros [= ->]. split_and!; [done.. |].
  by intros st ->.
Qed.

End CtaClaims.

Import JsValue JsString JsRegExp Widget Sample.

Lemma sample_labels (k label : string) :
  @CTA_TYPES Sample.browser !! k = Some label ->
  label <> EmptyString.
Proof.
  simpl. intros Hk.
  apply lookup_insert_Some in Hk as [[_ <-]|[_ Hk]]; [done |].
  apply lookup_singleton_Some in Hk as [_ <-]. done.
Qed.


Lemma setMetaCtaLink_passes_inherited_witness :
  setMetaCtaLink "<meta name='amp-cta-type' content='constructor'>"
    (Link None EmptyString)
  = (Link (Some "https://amp.dev") "function Object() { [native code] }",
     Normal tt).
Proof.
  rewrite (setMetaCtaLink_passes_inherited
             "<meta name='amp-cta-type' content='constructor'>"
             (Link None EmptyString) "function Object() { [native code] }");
    vm_compute; reflexivity.
Defined.

Lemma setMetaCtaLink_throws_iff_witness :
  snd (setMetaCtaLink "<meta name='amp-cta-type' content='BUY'>"
         (Link None EmptyString))
  = Throw "Unknown CTA type BUY".
Proof.
  destruct (setMetaCtaLink_throws_iff "<meta name='amp-cta-type' content='BUY'>"
              (Link None EmptyString) sample_labels) as (_ & Hthrow & _).
  rewrite Hthrow; vm_compute; reflexivity.
Defined.

Lemma setMetaCtaLink_not_atomic_witness :
  href
    (fst (setMetaCtaLink
            "<meta name='amp-cta-url' content='https://x.example/'><meta name='amp-cta-type' content='BUY'>"
            (Link None "Old")))
  = Some "https://x.example/".
Proof.
  destruct (setMetaCtaLink_not_atomic
              "<meta name='amp-cta-url' content='https://x.example/'><meta name='amp-cta-type' content='BUY'>"
              (Link None "Old") "Unknown CTA type BUY") as (Hhref & _).
  - vm_compute. reflexivity.
  - rewrite Hhref. vm_compute. reflexivity.
Defined.

(** ** The patches and the template *)

(** C5, as the code has it.  On a document that holds [<head>] and with a
    content in which no [$] stands directly before [$], [&], [`] or ['],
    [addScriptToHead] returns the document with the content put right after
    the first [<head>] and nothing else changed.  On a document that holds
    a [<body ...>] tag, [setBodyAmpStoryVisible] puts [ amp-story-visible]
    before the [>] of the first such tag and changes nothing else. *)
Theorem patches_insert_at_anchor :
  (forall docStr headContent b a,
     docStr = b +:+ "<head>" +:+ a ->
     hasReplacementPattern headContent = false ->
     exists before after,
       docStr = before +:+ "<head>" +:+ after /\
       (forall b' a', docStr = b' +:+ "<head>" +:+ a' ->
          String.length before <= String.length b') /\
       addScriptToHead docStr headContent
         = before +:+ "<head>" +:+ headContent +:+ after) /\
  (forall docStr pre attrs0 post,
     docStr = pre +:+ "<body" +:+ attrs0 +:+ ">" +:+ post ->
     lacks ">" attrs0 ->
     exists before attrs after,
       docStr = before +:+ "<body" +:+ attrs +:+ ">" +:+ after /\
       lacks ">" attrs /\
       (forall pre' attrs' post',
          docStr = pre' +:+ "<body" +:+ attrs' +:+ ">" +:+ post' ->
          lacks ">" attrs' ->
          String.length before <= String.length pre') /\
       setBodyAmpStoryVisible docStr
         = before +:+ "<body" +:+ attrs +:+ " amp-story-visible>" +:+ after).
Proof.
  split.
  - intros docStr headContent b a. apply addScriptToHead_occurs.
  - intros docStr pre attrs0 post. apply setBodyAmpStoryVisible_tag.
Qed.

Lemma patches_insert_at_anchor_witness :
  exists before after,
    "<html><head><title>Ad</title></head></html>"
      = before +:+ "<head>" +:+ after /\
    (forall b' a',
       "<html><head><title>Ad</title></head></html>" = b' +:+ "<head>" +:+ a' ->
       String.length before <= String.length b') /\
    addScriptToHead "<html><head><title>Ad</title></head></html>"
      "<script>var price = '$5';</script>"
    = before +:+ "<head>" +:+ "<script>var price = '$5';</script>" +:+ after.
Proof.
  apply (proj1 patches_insert_at_anchor
           "<html><head><title>Ad</title></head></html>"
           "<script>var price = '$5';</script>"
           "<html>" "<title>Ad</title></head></html>");
    reflexivity.
Defined.

(** C5 as stated fails: a content holding [$&] is not inserted as given;
    the [$&] is replaced by the matched [<head>]. *)
Lemma addScriptToHead_expands_dollar :
  addScriptToHead "<html><head></head></html>" "<script>f('$&')</script>"
    = "<html><head><script>f('<head>')</script></head></html>" /\
  addScriptToHead "<html><head></head></html>" "<script>f('$&')</script>"
    <> "<html><head>" +:+ "<script>f('$&')</script>" +:+ "</head></html>".
Proof. split; [reflexivity | discriminate]. Qed.

Section TemplateClaims.
Context `{Browser}.

(** C2, as the code has it.  No patch function raises.  On a document
    without [<head>], [addScriptToHead] and the patches built on it return
    the document as it is; on a document without a [<body ...>] tag so does
    [setBodyAmpStoryVisible]; and an inner update with a document that has
    neither goes on: once the link is written the document is written to
    the ad iframe, unpatched, and the update's promise is fulfilled. *)
Theorem patches_leave_unanchored :
  (forall docStr,
     (forall b a, docStr <> b +:+ "<head>" +:+ a) ->
     (forall headContent, addScriptToHead docStr headContent = docStr) /\
     insertHttpsCircumventionPatch docStr = docStr /\
     storyCssPatch docStr = docStr /\
     (forall pageId, storyNavigationPatch docStr pageId = docStr) /\
     (forall pageId, patchOuter docStr pageId = docStr)) /\
  (forall docStr,
     (forall pre attrs post,
        lacks ">" attrs ->
        docStr <> pre +:+ "<body" +:+ attrs +:+ ">" +:+ post) ->
     setBodyAmpStoryVisible docStr = docStr) /\
  (forall dirty sw st,
     (forall b a, dirty <> b +:+ "<head>" +:+ a) ->
     (forall pre attrs post,
        lacks ">" attrs ->
        dirty <> pre +:+ "<body" +:+ attrs +:+ ">" +:+ post) ->
     idle st ->
     snd (setMetaCtaLink dirty (ctaLink st)) = Normal tt ->
     patch dirty = dirty /\
     exists st' rest,
       call_result (UpdateInner dirty sw) st = ([], st') /\
       adFrame st' = Some dirty /\
       log st' = Fulfilled (Method "updateInner") :: WroteAd dirty :: rest).
Proof.
  split_and!.
  - intros docStr Hno.
    assert (Ha : forall headContent, addScriptToHead docStr headContent = docStr)
      by (intros; by apply addScriptToHead_absent).
    split_and!; [done | apply Ha | apply Ha | intros; apply Ha |].
    intros pageId. unfold patchOuter, storyNavigationPatch, storyCssPatch.
    by rewrite !Ha.
  - apply setBodyAmpStoryVisible_no_tag.
  - intros dirty sw st Hhead Hbody Hidle Hcta.
    assert (Hp : patch dirty = dirty).
    { unfold patch, insertHttpsCircumventionPatch.
      rewrite addScriptToHead_absent by done.
      by apply setBodyAmpStoryVisible_no_tag. }
    split; [done |]. destruct st as [sd se sf af cl lg].
    rewrite updateInner_run by done. simpl in Hcta.
    destruct (setMetaCtaLink dirty cl) as [l [[]|msg]]; [|done].
    rewrite Hp. eauto.
Qed.

(** C6.  When the host element carries a template that is not empty, the
    constructor succeeds and stores the template with the first
    [{{ adSandbox }}] replaced by the six sandbox tokens joined by spaces,
    or the template itself when it holds no [{{ adSandbox }}]; the stored
    document is a string, and the jobs the constructor queued leave it as
    it is. *)
Theorem constructor_stores_template (el : element) (template : string) :
  dataTemplate el = Some template ->
  template <> EmptyString ->
  exists q st st',
    snd (construct el) = Normal (q, st) /\
    event_loop fuel q st = ([], st') /\
    storyDoc st' = storyDoc st /\
    ((forall b a, template <> b +:+ "{{ adSandbox }}" +:+ a) ->
     storyDoc st = template) /\
    (forall b a,
       template = b +:+ "{{ adSandbox }}" +:+ a ->
       exists before after,
         template = before +:+ "{{ adSandbox }}" +:+ after /\
         (forall b' a', template = b' +:+ "{{ adSandbox }}" +:+ a' ->
            String.length before <= String.length b') /\
         storyDoc st
           = before
             +:+ "allow-scripts allow-forms allow-same-origin allow-popups allow-popups-to-escape-sandbox allow-top-navigation"
             +:+ after).
Proof.
  intros Ht Hne. unfold construct, getDataTemplate. rewrite Ht.
  rewrite (assert_Normal _ _ template) by done.
  set (sd := JsString.replace template "{{ adSandbox }}" defaultIframeSandbox).
  pose proof (constructor_run sd) as Hrun. cbv zeta in Hrun.
  destruct (run_job (Method "constructor") constructorBody
              (State sd [] None None (Link None EmptyString) [])) as [st1 q] eqn:E.
  assert (Hsd : storyDoc st1 = sd).
  { revert E. unfold constructorBody, storyIframeChain.
    cbv [run_job app fst snd awaitSelect say emit settle storyDoc settled
         storyFrame adFrame ctaLink log].
    by intros [= <- _]. }
  cbn [fst snd] in Hrun. eexists q, st1, _. split_and!.
  - done.
  - exact Hrun.
  - by rewrite Hsd.
  - intros Hno. rewrite Hsd. by apply replace_absent.
  - intros b a Hb. rewrite Hsd.
    destruct (replace_occurs template "{{ adSandbox }}" defaultIframeSandbox
                b a Hb) as (before & after & Hs & Hfirst & Hr).
    exists before, after. split_and!; [done.. |].
    subst sd. rewrite Hr. reflexivity.
Qed.

End TemplateClaims.

Lemma constructor_stores_template_witness :
  exists q st,
    snd (construct Sample.host) = Normal (q, st) /\
    storyDoc st
    = "<html><head></head><body><iframe sandbox='allow-scripts allow-forms allow-same-origin allow-popups allow-popups-to-escape-sandbox allow-top-navigation'></iframe></body></html>".
Proof.
  destruct (constructor_stores_template Sample.host
              "<html><head></head><body><iframe sandbox='{{ adSandbox }}'></iframe></body></html>"
              eq_refl) as (q & st & st' & Hc & _ & _ & _ & _).
  - discriminate.
  - exists q, st. split; [exact Hc |].
    revert Hc. vm_compute. intros [= _ <-]. reflexivity.
Defined.

(** C2 as stated fails: a document with neither [<head>] nor a [<body>]
    tag is patched into itself, and the update that carries it ends
    fulfilled, the document written to the ad iframe. *)
Lemma missing_anchor_does_not_raise :
  includes "<p>Hello</p>" "<head>" = false /\
  addScriptToHead "<p>Hello</p>" httpsCircumventionPatch = "<p>Hello</p>" /\
  setBodyAmpStoryVisible "<p>Hello</p>" = "<p>Hello</p>" /\
  fst (Sample.run [UpdateInner "<p>Hello</p>" false]) = [] /\
  adFrame (snd (Sample.run [UpdateInner "<p>Hello</p>" false]))
    = Some "<p>Hello</p>" /\
  exists rest,
    log (snd (Sample.run [UpdateInner "<p>Hello</p>" false]))
    = Fulfilled (Method "updateInner") :: WroteAd "<p>Hello</p>" :: rest.
Proof. vm_compute. split_and!; [reflexivity.. |]. eexists. reflexivity. Qed.

(** ** The order of events *)

Section OrderFacts.

Lemma in_order_tail (e : event) (l : list event) :
  in_order (watch_log (e :: l)) = true -> in_order (watch_log l) = true.
Proof.
  unfold watch_log. simpl. destruct e; simpl; try done.
  - by intros [? _]%andb_true_iff.
  - by intros [? _]%andb_true_iff.
Qed.

(** The story has loaded: some [Loaded] is in the log with no later write
    to the story iframe. *)
Lemma story_loaded_sound (l : list event) :
  story_loaded (watch_log l) = true ->
  exists later earlier,
    l = later ++ Loaded :: earlier /\ forall d, WroteStory d ∉ later.
Proof.
  induction l as [|e l IH]; [done |].
  unfold watch_log in *. simpl.
  destruct e; simpl; try done;
    try (intros Hl; destruct (IH Hl) as (later & earlier & -> & Hno);
         eexists (_ :: later), earlier; split; [reflexivity |];
         intros d [Hd|Hd]%elem_of_cons; [discriminate | by apply (Hno d)]).
  intros _. exists [], l. split; [done |]. intros d Hd. by inversion Hd.
Qed.

Lemma link_written_1 (l : list event) :
  link_written (watch_log l) = 1 -> exists u rest, l = SetHref u :: rest.
Proof.
  destruct l as [|e l]; [done |]. unfold watch_log. simpl.
  destruct e; simpl; try done; [eauto |].
  by destruct (_ =? 1).
Qed.

(** The link has just been written: its [href], then its text. *)
Lemma link_written_2 (l : list event) :
  link_written (watch_log l) = 2 ->
  exists t u rest, l = SetText t :: SetHref u :: rest.
Proof.
  destruct l as [|e l]; [done |]. unfold watch_log. simpl.
  destruct e; simpl; try done.
  destruct (_ =? 1) eqn:E; [|done]. intros _.
  apply Nat.eqb_eq in E. destruct (link_written_1 l E) as (u & rest & ->).
  eauto.
Qed.

(** What [watch] checks, said of the log itself. *)
Lemma in_order_sound (l : list event) :
  in_order (watch_log l) = true ->
  (forall later sel earlier,
     l = later ++ Selected sel :: earlier ->
     exists between before,
       earlier = between ++ Loaded :: before /\
       forall d, WroteStory d ∉ between) /\
  (forall later d earlier,
     l = later ++ WroteAd d :: earlier ->
     exists t u rest, earlier = SetText t :: SetHref u :: rest).
Proof.
  induction l as [|e l IH]; intros Hok.
  - split; intros [|? ?]; done.
  - destruct (IH (in_order_tail _ _ Hok)) as [IH1 IH2]. split.
    + intros [|e' later] sel earlier Hl; simpl in Hl.
      * injection Hl as -> ->. apply story_loaded_sound.
        unfold watch_log in *. simpl in Hok.
        by apply andb_true_iff in Hok as [_ ?].
      * injection Hl as -> ->. by eapply IH1.
    + intros [|e' later] d earlier Hl; simpl in Hl.
      * injection Hl as -> ->. apply link_written_2.
        unfold watch_log in *. simpl in Hok.
        apply andb_true_iff in Hok as [_ Hw]. by apply Nat.eqb_eq in Hw.
      * injection Hl as -> ->. by eapply IH2.
Qed.

(** The same of the history, the oldest event first. *)
Lemma in_order_history (st : state) :
  in_order (watch_log (log st)) = true ->
  (forall pre sel post,
     history st = pre ++ Selected sel :: post ->
     exists a b, pre = a ++ Loaded :: b /\ forall d, WroteStory d ∉ b) /\
  (forall pre d post,
     history st = pre ++ WroteAd d :: post ->
     exists a u t, pre = a ++ [SetHref u; SetText t]).
Proof.
  intros Hok. destruct (in_order_sound _ Hok) as [H1 H2].
  unfold history. split.
  - intros pre sel post Hh.
    assert (Hl : log st = rev post ++ Selected sel :: rev pre).
    { rewrite <- (rev_involutive (log st)), Hh, rev_app_distr. simpl.
      by rewrite <- List.app_assoc. }
    destruct (H1 _ _ _ Hl) as (between & before & Hp & Hno).
    exists (rev before), (rev between). split.
    + rewrite <- (rev_involutive pre), Hp, rev_app_distr. simpl.
      by rewrite <- List.app_assoc.
    + intros d Hd. apply (Hno d).
      apply list_elem_of_In, in_rev. by apply list_elem_of_In.
  - intros pre d post Hh.
    assert (Hl : log st = rev post ++ WroteAd d :: rev pre).
    { rewrite <- (rev_involutive (log st)), Hh, rev_app_distr. simpl.
      by rewrite <- List.app_assoc. }
    destruct (H2 _ _ _ Hl) as (t & u & rest & Hp).
    exists (rev rest), u, t.
    rewrite <- (rev_involutive pre), Hp. simpl. by rewrite <- !List.app_assoc.
Qed.

End OrderFacts.

(** ** Sessions *)

Section SessionClaims.
Context `{Browser}.

Lemma setMetaCtaLink_href (docStr : string) (l : link) :
  href (fst (setMetaCtaLink docStr l))
    = Some (to_string (snd (resolveCta docStr))).
Proof.
  unfold setMetaCtaLink. destruct (resolveCta docStr) as [t u].
  cbn [fst snd]. by destruct (assertProperty _ _).
Qed.

Lemma call_keeps_order (c : call) (st : state) :
  settled_in_order st ->
  exists st', call_result c st = ([], st') /\ settled_in_order st'.
Proof.
  intros (Hidle & Hok & Hl). destruct st as [sd se sf af cl lg].
  unfold settled_in_order, idle, is_settled, watch_log in *.
  cbn [log settled] in *.
  destruct c as [dirty sw|dirty dirtyInner sw].
  - rewrite updateInner_run by done. eexists. split; [reflexivity |].
    cbv zeta. destruct (setMetaCtaLink dirty cl) as [l [[]|msg]];
      cbn [log settled fold_right observe story_loaded link_written in_order];
      rewrite ?Hok, ?Hl; simpl; done.
  - rewrite updateOuter_run by done. eexists. split; [reflexivity |].
    cbv zeta. destruct (setMetaCtaLink dirtyInner cl) as [l [[]|msg]];
      destruct sw;
      cbn [log settled fold_right observe story_loaded link_written in_order];
      rewrite ?Hok, ?Hl; simpl; done.
Qed.

Lemma session_drain (calls : list call) (q : list task) (st st' : state) :
  event_loop fuel q st = ([], st') ->
  session calls q st = session calls [] st'.
Proof.
  intros E. destruct calls; cbn [session]; by rewrite E, event_loop_nil.
Qed.

Lemma session_keeps_order (calls : list call) (st : state) :
  settled_in_order st ->
  exists st', session calls [] st = ([], st') /\ settled_in_order st'.
Proof.
  revert st. induction calls as [|c calls IH]; intros st Hst.
  - exists st. cbn [session]. by rewrite event_loop_nil.
  - destruct (call_keeps_order c st Hst) as (st1 & Hcall & Hst1).
    destruct (IH st1 Hst1) as (st2 & Hrest & Hst2).
    exists st2. split; [|done].
    cbn [session]. rewrite event_loop_nil. unfold call_result in Hcall.
    destruct (invoke c [] st) as [q2 st2'].
    by rewrite (session_drain _ _ _ _ Hcall).
Qed.

(** A widget built on an element with a template, and taken through any
    calls made one after the other, runs all its jobs, and in its history:
    before every [querySelector] in the story document the story iframe was
    seen loaded, with no document written to it since; and right before
    every write to the ad iframe the link's [href] and then its text were
    written. *)
Theorem serial_session_in_order (el : element) (calls : list call) :
  truthy (dataTemplate el) = true ->
  exists st,
    run_widget el calls = Normal ([], st) /\
    (forall pre sel post,
       history st = pre ++ Selected sel :: post ->
       exists a b, pre = a ++ Loaded :: b /\ forall d, WroteStory d ∉ b) /\
    (forall pre d post,
       history st = pre ++ WroteAd d :: post ->
       exists a u t, pre = a ++ [SetHref u; SetText t]).
Proof.
  intros Ht. unfold run_widget, construct, getDataTemplate.
  destruct (dataTemplate el) as [[|c t]|]; try discriminate. cbn [assert].
  set (sd := JsString.replace (String c t) "{{ adSandbox }}" defaultIframeSandbox).
  pose proof (constructor_run sd) as Hrun. cbv zeta in Hrun.
  destruct (run_job (Method "constructor") constructorBody
              (State sd [] None None (Link None EmptyString) [])) as [st1 q].
  cbn [fst snd] in Hrun.
  rewrite (session_drain _ _ _ _ Hrun).
  destruct (session_keeps_order calls
              (State sd [StoryCtaLink; AdIframe; StoryIframe]
                 (Some (patchOuter sd "page-1")) None (Link None EmptyString)
                 [ Fulfilled (Chain StoryCtaLink);
                   Selected ".i-amphtml-story-ad-link";
                   Fulfilled (Chain AdIframe); Selected "iframe";
                   Fulfilled (Chain StoryIframe); Loaded;
                   WroteStory (patchOuter sd "page-1"); Loaded; Attached;
                   Fulfilled (Method "constructor"); Rendered ]))
    as (st & Hs & _ & Hok & _).
  { unfold settled_in_order, idle. split_and!; reflexivity. }
  exists st. rewrite Hs. split; [done |]. by apply in_order_history.
Qed.

(** C9.  [updateOuter] starts the inner update and does not wait for it:
    on an idle widget its own promise is fulfilled once the ad iframe has
    been looked up, and only after that does the inner update write the
    story document again, write the link and write the ad document. *)
Theorem updateOuter_fulfilled_first (dirty dirtyInner : string) (sw : bool)
    (st : state) :
  idle st ->
  exists st',
    call_result (UpdateOuter dirty dirtyInner sw) st = ([], st') /\
    history st' =
      history st
      ++ (if sw then [WroteStory (patchOuter dirty "cover"); Loaded] else [])
      ++ [ Selected "iframe";
           Fulfilled (Method "updateOuter");
           WroteStory (storyCssPatch dirty); Loaded; Selected "iframe";
           SetHref (to_string (snd (resolveCta dirtyInner))) ]
      ++ match snd (setMetaCtaLink dirtyInner (ctaLink st)) with
         | Normal _ =>
             [ SetText (textContent (fst (setMetaCtaLink dirtyInner (ctaLink st))));
               WroteAd (patch dirtyInner);
               Fulfilled (Method "updateInner") ]
         | Throw msg => [Rejected (Method "updateInner") msg]
         end.
Proof.
  intros Hidle. destruct st as [sd se sf af cl lg].
  rewrite updateOuter_run by done. eexists. split; [reflexivity |].
  cbv zeta. cbn [ctaLink]. unfold history.
  pose proof (setMetaCtaLink_href dirtyInner cl) as Hhref.
  destruct (setMetaCtaLink dirtyInner cl) as [l [[]|msg]];
    cbn [fst snd] in *; rewrite Hhref; destruct sw;
    cbn [log rev to_string]; rewrite <- ?List.app_assoc; reflexivity.
Qed.

End SessionClaims.

Lemma serial_session_in_order_witness :
  exists st,
    run_widget Sample.host
      [ UpdateInner "<html><head></head><body>Ad</body></html>" false;
        UpdateOuter "<html><head></head><body>Story</body></html>"
          "<p>Ad</p>" true ]
    = Normal ([], st).
Proof.
  destruct (serial_session_in_order Sample.host
              [ UpdateInner "<html><head></head><body>Ad</body></html>" false;
                UpdateOuter "<html><head></head><body>Story</body></html>"
                  "<p>Ad</p>" true ] eq_refl) as (st & Hrun & _).
  by exists st.
Defined.

Lemma updateOuter_fulfilled_first_witness :
  exists st',
    call_result (UpdateOuter "<html><head></head></html>" "<p>Ad</p>" true)
      (snd (Sample.run []))
    = ([], st').
Proof.
  destruct (updateOuter_fulfilled_first "<html><head></head></html>" "<p>Ad</p>"
              true (snd (Sample.run []))) as (st' & Hrun & _).
  - vm_compute. done.
  - by exists st'.
Defined.

(** ** The build script *)

Module BuildFacts.
Import Build.

Section Facts.
Context {bundle : Type} `{Tools bundle}.

Lemma bundleWrite_log (b : bundle) (out : outputOptions) (w : world) :
  log (fst (bundleWrite b out w)) = BundleWrite (file out) :: log w.
Proof.
  unfold bundleWrite, bind, say, lift. simpl.
  by destruct (bundle_code b out).
Qed.

Lemma all_of_cons_fst {A : Type} (cb : A -> action unit) (x : A)
    (rest : list A) (w : world) :
  fst (all_of cb (x :: rest) w) = fst (all_of cb rest (fst (cb x w))).
Proof. simpl. by destruct (cb x w) as [w1 [[]|msg]]. Qed.

(** Whatever the list of bundles, one [write] is made per entry, in the
    order of the list, whether or not an earlier one failed. *)
Lemma all_of_bundleWrite_log (b : bundle) (l : list outputOptions) (w : world) :
  log (fst (all_of (bundleWrite b) l w))
  = map (fun out => BundleWrite (file out)) (rev l) ++ log w.
Proof.
  revert w. induction l as [|out l IH]; intros w; [done |].
  rewrite all_of_cons_fst, IH, bundleWrite_log. simpl.
  by rewrite map_app, <- List.app_assoc.
Qed.

Lemma build_rollup_fails (w : world) (msg : string) :
  rollup inputConfig = Throw msg ->
  build w
  = (World (files w) (Rollup inputConfig :: Step "🚧 Building" :: log w),
     Throw msg).
Proof. intros E. unfold build, step, bind, say, lift. simpl. by rewrite E. Qed.

Lemma build_log (w : world) (b : bundle) :
  rollup inputConfig = Normal b ->
  log (fst (build w))
  = map (fun out => BundleWrite (file out)) (rev outputBundles)
    ++ Rollup inputConfig :: Step "🚧 Building" :: log w.
Proof.
  intros E. unfold build, step, bind, say, lift, withAllBundles.
  cbn [fst snd files log]. rewrite E.
  by rewrite all_of_bundleWrite_log.
Qed.

Lemma build_succeeds (w : world) (b : bundle) (text : string) :
  rollup inputConfig = Normal b ->
  bundle_code b (OutputOptions "dist/app.js" "iife" "ampStoryAdPreview")
    = Normal text ->
  build w
  = (World (<["dist/app.js" := text]> (files w))
       (BundleWrite "dist/app.js" :: Rollup inputConfig
        :: Step "🚧 Building" :: log w),
     Normal tt).
Proof.
  intros E Ec.
  unfold build, step, bind, say, lift, withAllBundles, outputBundles, all_of,
    bundleWrite, bind, say, lift, ret.
  cbn [fst snd files log file]. by rewrite E, Ec.
Qed.

Lemma build_write_fails (w : world) (b : bundle) (msg : string) :
  rollup inputConfig = Normal b ->
  bundle_code b (OutputOptions "dist/app.js" "iife" "ampStoryAdPreview")
    = Throw msg ->
  build w
  = (World (files w)
       (BundleWrite "dist/app.js" :: Rollup inputConfig
        :: Step "🚧 Building" :: log w),
     Throw msg).
Proof.
  intros E Ec.
  unfold build, step, bind, say, lift, withAllBundles, outputBundles, all_of,
    bundleWrite, bind, say, lift, ret.
  cbn [fst snd files log file]. by rewrite E, Ec.
Qed.

(** The events of [build] itself: no [fs.outputFile] among them. *)
Lemma build_no_outputFile (w : world) :
  exists new,
    log (fst (build w)) = new ++ Rollup inputConfig :: Step "🚧 Building" :: log w /\
    forall f, OutputFile f ∉ new.
Proof.
  destruct (rollup inputConfig) as [b|msg] eqn:E.
  - rewrite (build_log _ b E). eexists. split; [reflexivity |].
    intros f Hf. simpl in Hf. apply list_elem_of_singleton in Hf. done.
  - rewrite (build_rollup_fails _ msg E). exists []. split; [done |].
    intros f Hf. by inversion Hf.
Qed.

End Facts.
End BuildFacts.

Module BuildClaims.
Import Build BuildFacts.

Section Claims.
Context {bundle : Type} `{Tools bundle}.


(** C8, as the code has it.  When rollup returns a bundle, [build] asks
    the bundle for one write per entry of [outputBundles], whatever that
    list holds; the list holds the one target [dist/app.js], so such a
    build makes exactly one write, to [dist/app.js], and when the write
    succeeds it leaves that one file written (when the write fails the
    build fails with its error and no file is written).  When rollup
    fails, [build] makes no write at all and fails with rollup's error. *)
Theorem build_writes_each_bundle (w : world) :
  (forall b l w0,
     log (fst (all_of (bundleWrite b) l w0))
     = map (fun out => BundleWrite (file out)) (rev l) ++ log w0) /\
  map file outputBundles = ["dist/app.js"] /\
  (forall b,
     rollup inputConfig = Normal b ->
     log (fst (build w))
     = BundleWrite "dist/app.js" :: Rollup inputConfig
       :: Step "🚧 Building" :: log w /\
     (forall text,
        bundle_code b (OutputOptions "dist/app.js" "iife" "ampStoryAdPreview")
          = Normal text ->
        snd (build w) = Normal tt /\
        files (fst (build w)) = <["dist/app.js" := text]> (files w)) /\
     (forall msg,
        bundle_code b (OutputOptions "dist/app.js" "iife" "ampStoryAdPreview")
          = Throw msg ->
        snd (build w) = Throw msg /\
        files (fst (build w)) = files w)) /\
  (forall msg,
     rollup inputConfig = Throw msg ->
     build w
     = (World (files w) (Rollup inputConfig :: Step "🚧 Building" :: log w),
        Throw msg)).
Proof.
  split_and!.
  - intros b l w0. apply all_of_bundleWrite_log.
  - reflexivity.
  - intros b E. split_and!.
    + by rewrite (build_log w b E).
    + intros text Ec. by rewrite (build_succeeds w b text E Ec).
    + intros msg Ec. by rewrite (build_write_fails w b msg E Ec).
  - intros msg E. by apply build_rollup_fails.
Qed.

End Claims.


Lemma build_writes_each_bundle_witness :
  log (fst (build (H := sample_tools) (World ∅ [])))
  = [BundleWrite "dist/app.js"; Rollup inputConfig; Step "🚧 Building"] /\
  files (fst (build (H := sample_tools) (World ∅ []))) !! "dist/app.js"
  = Some "var ampStoryAdPreview = (function () { var app = 'src/bundles/app.js'; })();".
Proof.
  destruct (build_writes_each_bundle (H := sample_tools) (World ∅ []))
    as (_ & _ & Hok & _).
  destruct (Hok "var app = 'src/bundles/app.js';" eq_refl)
    as (Hlog & Hwritten & _).
  destruct (Hwritten _ eq_refl) as [_ Hfiles].
  split; [exact Hlog |]. rewrite Hfiles. vm_compute. reflexivity.
Defined.

(** C8 as stated fails: a build whose bundler fails makes no write and
    leaves no artifact. *)
Lemma failed_build_writes_nothing :
  build (H := failing_tools) (World ∅ [])
  = (World ∅ [Rollup inputConfig; Step "🚧 Building"],
     Throw "Could not resolve entry module (src/bundles/app.js).") /\
  (forall f, BundleWrite f ∉ log (fst (build (H := failing_tools) (World ∅ [])))) /\
  files (fst (build (H := failing_tools) (World ∅ []))) !! "dist/app.js" = None.
Proof.
  split_and!; [reflexivity | | reflexivity].
  intros f Hf. cbn in Hf.
  apply elem_of_cons in Hf as [Hf|Hf]; [done |].
  apply elem_of_cons in Hf as [Hf|Hf]; [done |].
  by apply elem_of_nil in Hf.
Qed.

End BuildClaims.

(** ** Every execution *)

Section ExecutionFacts.
Context `{Browser}.

Lemma extends_refl (st : state) : extends st st.
Proof. split; [by exists [] | done]. Qed.

Lemma extends_trans (st1 st2 st3 : state) :
  extends st1 st2 -> extends st2 st3 -> extends st1 st3.
Proof.
  intros [[n1 E1] S1] [[n2 E2] S2]. split; [|by auto].
  exists (n2 ++ n1). by rewrite E2, E1, List.app_assoc.
Qed.

Lemma extends_emit (e : event) (st : state) : extends st (emit e st).
Proof. split; [by exists [e] | done]. Qed.

Lemma holds_extends (st st' : state) (a : known) :
  extends st st' -> holds st a -> holds st' a.
Proof.
  intros [[new E] Hs] (H1 & H2 & H3 & H4). unfold holds. rewrite E.
  split_and!.
  - auto.
  - intros d Hd. destruct (H2 d Hd) as [Hh [t Ht]].
    split; [|exists t]; apply elem_of_app; by right.
  - intros Hw. destruct (H3 Hw) as [d Hd]. exists d.
    apply elem_of_app; by right.
  - intros Hl. destruct (H4 Hl) as (x & y & d & z & ->).
    exists (new ++ x), y, d, z. by rewrite <- List.app_assoc.
Qed.

Lemma task_ok_extends (st st' : state) (t : task) :
  extends st st' -> task_ok st t -> task_ok st' t.
Proof. intros He (a & Ha & Hp). exists a. eauto using holds_extends. Qed.

Lemma log_ok_nil : log_ok [].
Proof. split_and!; intros [|? ?]; intros; discriminate. Qed.

(** One more event keeps the order when it is itself in order. *)
Lemma log_ok_cons (e : event) (l : list event) :
  log_ok l ->
  (forall sel, e = Selected sel -> Fulfilled (Chain StoryIframe) ∈ l) ->
  (e = Fulfilled (Chain StoryIframe) ->
   exists x y d z, l = x ++ Loaded :: y ++ WroteStory d :: z) ->
  (forall doc, e = WroteAd doc ->
   exists d, doc = patch d /\
     SetHref (to_string (snd (resolveCta d))) ∈ l /\ exists t, SetText t ∈ l) ->
  log_ok (e :: l).
Proof.
  intros (L1 & L2 & L3) E1 E2 E3. split_and!.
  - intros [|e' post] sel pre; simpl; intros [= -> ->]; [by eapply E1 | by eapply L1].
  - intros [|e' post] pre; simpl; intros [= -> ->]; [by apply E2 | by eapply L2].
  - intros [|e' post] doc pre; simpl; intros [= -> ->]; [by eapply E3 | by eapply L3].
Qed.

Lemma log_ok_plain (e : event) (l : list event) :
  plain e -> log_ok l -> log_ok (e :: l).
Proof.
  intros (P1 & P2 & P3) Hl. apply log_ok_cons; [done | | |].
  - intros sel ->. by destruct (P1 sel).
  - intros ->. done.
  - intros doc ->. by destruct (P3 doc).
Qed.

Lemma settled_ok_emit (e : event) (st : state) :
  settled_ok st -> settled_ok (emit e st).
Proof. intros Hs Hr. right. by apply Hs. Qed.

(** A statement that completes and adds the one event [e]. *)
Lemma job_ok_step (n : name) (f : stmt) (k : proc) (st st' : state) :
  f st = (st', Normal tt) ->
  extends st st' ->
  job_ok n k st' ->
  job_ok n (Sync f k) st.
Proof.
  intros Ef He (J1 & J2 & J3 & J4). unfold job_ok. cbn [run_job].
  rewrite Ef. split_and!; [done | done | by eapply extends_trans | done].
Qed.

Lemma run_job_ok (n : name) (a : known) (p : proc) :
  in_program_order n a p ->
  forall st, holds st a -> log_ok (log st) -> settled_ok st -> job_ok n p st.
Proof.
  induction 1 as [n a Hret|n a k Hk IH|n a k Hk IH|n a k Hk IH
                 |n a sel k Hr Hk IH|n a d k Hk IH|n a doc k Hk IH
                 |n a d k Hk IH|n a d k Hc Hk IH|n a w k Hk IH
                 |n a cn child k Hchild IHc Hk IHk];
    intros st Ha Hl Hs.
  - (* return *)
    unfold job_ok. cbn [run_job fst snd].
    assert (Hlog : log (settle n st) = Fulfilled n :: log st) by by destruct n.
    split_and!.
    + rewrite Hlog. apply log_ok_cons; [done | discriminate | | discriminate].
      intros [= ->]. destruct Ha as (_ & _ & _ & H4). by apply H4, Hret.
    + intros Hr. rewrite Hlog. destruct n as [[]|fn]; try (right; by apply Hs).
      by left.
    + split; [exists [Fulfilled n]; by rewrite Hlog |].
      intros p Hp. destruct n as [q|fn]; [|done].
      unfold is_settled, settle. cbn [settled emit existsb].
      apply orb_true_iff. by right.
    + constructor.
  - (* rendered *)
    apply (job_ok_step _ _ _ _ (emit Rendered st)); [done | apply extends_emit |].
    apply IH; [by eapply holds_extends, Ha; apply extends_emit | |
               by apply settled_ok_emit].
    apply log_ok_plain; [|done]. by split_and!.
  - (* attached *)
    apply (job_ok_step _ _ _ _ (emit Attached st)); [done | apply extends_emit |].
    apply IH; [by eapply holds_extends, Ha; apply extends_emit | |
               by apply settled_ok_emit].
    apply log_ok_plain; [|done]. by split_and!.
  - (* loaded *)
    apply (job_ok_step _ _ _ _ (emit Loaded st)); [done | apply extends_emit |].
    apply IH; [| |by apply settled_ok_emit].
    + destruct (holds_extends _ _ _ (extends_emit Loaded st) Ha)
        as (H1 & H2 & H3 & H4).
      split_and!; [done | done | done |]. cbn [saw_loaded].
      intros [Hw|Hsl]%orb_true_iff; [|by apply H4].
      destruct Ha as (_ & _ & H3' & _). destruct (H3' Hw) as [d Hd].
      apply list_elem_of_split in Hd as (y & z & Hd).
      exists [], y, d, z. cbn [emit log]. by rewrite Hd.
    + apply log_ok_plain; [|done]. by split_and!.
  - (* selected *)
    apply (job_ok_step _ _ _ _ (emit (Selected sel) st));
      [done | apply extends_emit |].
    apply IH; [by eapply holds_extends, Ha; apply extends_emit | |
               by apply settled_ok_emit].
    apply log_ok_cons; [done | | discriminate | discriminate].
    intros _ _. apply Hs. destruct Ha as (H1 & _). by apply H1.
  - (* this.storyDoc = d *)
    apply (job_ok_step _ _ _ _ (set_storyDoc d st));
      [done | split; [by exists [] | done] |].
    apply IH; [| done | done].
    destruct Ha as (H1 & H2 & H3 & H4). by split_and!.
  - (* the story document is written *)
    set (st' := State (storyDoc st) (settled st) (Some (doc st)) (adFrame st)
                  (ctaLink st) (WroteStory (doc st) :: log st)).
    assert (He : extends st st') by (split; [by exists [WroteStory (doc st)] | done]).
    apply (job_ok_step _ _ _ _ st'); [done | done |].
    apply IH.
    + destruct (holds_extends _ _ _ He Ha) as (H1 & H2 & H3 & H4).
      split_and!; [done | done | | done].
      intros _. exists (doc st). by left.
    + apply log_ok_plain; [|done]. by split_and!.
    + intros Hr. right. by apply Hs.
  - (* the link is written *)
    unfold job_ok. cbn [run_job]. unfold setMetaCtaLinkStmt.
    pose proof (setMetaCtaLink_href d (ctaLink st)) as Hhref.
    destruct (setMetaCtaLink d (ctaLink st)) as [l [[]|msg]]; cbn [fst] in Hhref;
      rewrite Hhref; cbn [to_string app].
    + set (st' := State (storyDoc st) (settled st) (storyFrame st) (adFrame st) l
                    (SetText (textContent l)
                     :: SetHref (to_string (snd (resolveCta d))) :: log st)).
      assert (He : extends st st').
      { split; [|done].
        by exists [SetText (textContent l); SetHref (to_string (snd (resolveCta d)))]. }
      destruct (IH st') as (J1 & J2 & J3 & J4).
      * destruct (holds_extends _ _ _ He Ha) as (H1 & H2 & H3 & H4).
        split_and!; [done | | done | done].
        intros d' [= <-]. split; [right; by left |].
        exists (textContent l). by left.
      * apply log_ok_plain; [by split_and! |].
        apply log_ok_plain; [by split_and! | done].
      * intros Hr. right. right. by apply Hs.
      * split_and!; [done | done | by eapply extends_trans | done].
    + cbn [fst snd emit storyDoc settled storyFrame adFrame ctaLink log].
      split_and!.
      * apply log_ok_plain; [by split_and! |].
        apply log_ok_plain; [by split_and! | done].
      * intros Hr. right. right. by apply Hs.
      * split; [|done].
        by exists [Rejected n msg; SetHref (to_string (snd (resolveCta d)))].
      * constructor.
  - (* the ad document is written *)
    set (st' := State (storyDoc st) (settled st) (storyFrame st)
                  (Some (patch d)) (ctaLink st) (WroteAd (patch d) :: log st)).
    assert (He : extends st st') by (split; [by exists [WroteAd (patch d)] | done]).
    apply (job_ok_step _ _ _ _ st'); [done | done |].
    apply IH.
    + destruct (holds_extends _ _ _ He Ha) as (H1 & H2 & H3 & H4).
      by split_and!.
    + apply log_ok_cons; [done | discriminate | discriminate |].
      intros doc' [= <-]. exists d. destruct Ha as (_ & H2 & _).
      destruct (H2 d Hc) as [Hh Ht]. by split_and!.
    + intros Hr. right. by apply Hs.
  - (* await *)
    unfold job_ok. cbn [run_job fst snd].
    split_and!; [done | done | apply extends_refl |].
    constructor; [|constructor]. exists a. split; [done |]. by constructor.
  - (* a call whose promise is dropped *)
    unfold job_ok. cbn [run_job].
    destruct (IHc st) as (C1 & C2 & C3 & C4); [| done | done |].
    { destruct Ha as (H1 & _). split_and!; [done | done | done | done]. }
    destruct (run_job cn child st) as [st1 q1]. cbn [fst snd] in *.
    destruct (IHk st1) as (K1 & K2 & K3 & K4);
      [by eapply holds_extends | done | done |].
    destruct (run_job n k st1) as [st2 q2]. cbn [fst snd] in *.
    split_and!; [done | done | by eapply extends_trans |].
    apply Forall_app. split; [|done].
    eapply Forall_impl; [exact C4 |]. intros t. by apply task_ok_extends.
Qed.


Lemma event_loop_ok (f : nat) :
  forall q st, execution_ok q st ->
  execution_ok (fst (event_loop f q st)) (snd (event_loop f q st)).
Proof.
  induction f as [|f IH]; intros q st Hq; [done |].
  destruct q as [|[[n w] k] rest]; [done |]. cbn [event_loop].
  destruct Hq as (Hl & Hs & Hq). apply Forall_cons in Hq as [Ht Hrest].
  destruct (ready w st) eqn:Hr.
  - destruct Ht as (a & Ha & Hp). cbn [fst snd] in Hp.
    inversion Hp as [| | | | | | | | |? ? ? Hk|]; subst.
    destruct (run_job_ok _ _ _ Hk st) as (J1 & J2 & J3 & J4); [| done | done |].
    { destruct Ha as (H1 & H2 & H3 & H4). split_and!; [| done | done | done].
      cbn [story_ready]. intros [Hsr|Hw]%orb_true_iff; [by apply H1 |].
      destruct w as [[]| |]; try discriminate. exact Hr. }
    destruct (run_job n k st) as [st' q']. cbn [fst snd] in *.
    apply IH. split_and!; [done | done |].
    apply Forall_app. split; [|done].
    eapply Forall_impl; [exact Hrest |]. intros t. by apply task_ok_extends.
  - apply IH. split_and!; [done | done |].
    apply Forall_app. split; [done |]. by constructor.
Qed.

(** One rule of [in_program_order], what is known kept in normal form. *)
Ltac po :=
  first
    [ apply po_await | apply po_writeStory | apply po_loaded
    | apply po_rendered | apply po_attached | apply po_setStoryDoc
    | apply po_setMetaCtaLink
    | apply po_selected; [reflexivity |]
    | apply po_writeAd; [reflexivity |]
    | apply po_return; first [discriminate | reflexivity | done] ];
  cbn [story_ready cta_of wrote saw_loaded on_story orb].

Lemma updateInner_in_order (dirty : string) (sw r : bool) :
  in_program_order (Method "updateInner") (Known r None false false)
    (updateInner dirty sw).
Proof. unfold updateInner, awaitSelect. destruct r; do 13 po. Qed.

Lemma updateOuter_in_order (dirty dirtyInner : string) (sw : bool) :
  in_program_order (Method "updateOuter") nothing_known
    (updateOuter dirty dirtyInner sw).
Proof.
  unfold updateOuter, awaitSelect, nothing_known. po.
  destruct sw.
  - do 8 po. apply po_spawn; cbn [story_ready]; [apply updateInner_in_order | po].
  - do 3 po. apply po_spawn; cbn [story_ready]; [apply updateInner_in_order | po].
Qed.

Lemma constructorBody_in_order :
  in_program_order (Method "constructor") nothing_known constructorBody.
Proof.
  unfold constructorBody, storyIframeChain, awaitSelect, nothing_known.
  apply po_spawn; cbn [story_ready]; [do 8 po |].
  apply po_spawn; cbn [story_ready]; [do 3 po |].
  apply po_spawn; cbn [story_ready]; [do 3 po |].
  do 2 po.
Qed.

Lemma nothing_known_holds (st : state) : holds st nothing_known.
Proof. by split_and!. Qed.

Lemma run_job_execution_ok (n : name) (p : proc) (q : list task) (st : state) :
  in_program_order n nothing_known p ->
  execution_ok q st ->
  execution_ok (q ++ snd (run_job n p st)) (fst (run_job n p st)).
Proof.
  intros Hp (Hl & Hs & Hq).
  destruct (run_job_ok _ _ _ Hp st (nothing_known_holds st) Hl Hs)
    as (J1 & J2 & J3 & J4).
  split_and!; [done | done |]. apply Forall_app. split; [|done].
  eapply Forall_impl; [exact Hq |]. intros t. by apply task_ok_extends.
Qed.

Lemma invoke_ok (c : call) (q : list task) (st : state) :
  execution_ok q st ->
  execution_ok (fst (invoke c q st)) (snd (invoke c q st)).
Proof.
  intros Hq. unfold invoke.
  assert (Hp : in_program_order (call_name c) nothing_known (call_body c)).
  { destruct c; [apply updateInner_in_order | apply updateOuter_in_order]. }
  pose proof (run_job_execution_ok _ _ _ _ Hp Hq) as Hok.
  by destruct (run_job (call_name c) (call_body c) st).
Qed.

Lemma execute_ok (moves : list move) :
  forall q st, execution_ok q st ->
  execution_ok (fst (execute moves q st)) (snd (execute moves q st)).
Proof.
  induction moves as [|[c|n] moves IH]; intros q st Hq; [done | |];
    cbn [execute].
  - pose proof (invoke_ok c q st Hq) as Hok.
    destruct (invoke c q st) as [q' st']. by apply IH.
  - pose proof (event_loop_ok n q st Hq) as Hok.
    destruct (event_loop n q st) as [q' st']. by apply IH.
Qed.

Lemma construct_ok (el el' : element) (q : list task) (st : state) :
  construct el = (el', Normal (q, st)) -> execution_ok q st.
Proof.
  unfold construct, getDataTemplate.
  destruct (assert _ _) as [template|msg]; [|done].
  set (st0 := State _ [] None None _ []).
  pose proof (run_job_execution_ok _ _ [] st0 constructorBody_in_order) as Hok.
  destruct (run_job (Method "constructor") constructorBody st0) as [st1 q1].
  intros [= _ <- <-]. apply Hok.
  split_and!; [apply log_ok_nil | done | constructor].
Qed.

Lemma execute_Turns (n : nat) (moves : list move) (q : list task) (st : state) :
  execute (Turns n :: moves) q st
  = execute moves (fst (event_loop n q st)) (snd (event_loop n q st)).
Proof. cbn [execute]. by destruct (event_loop n q st). Qed.

Lemma execute_Call (c : call) (moves : list move) (q : list task) (st : state) :
  execute (Call c :: moves) q st
  = execute moves (fst (invoke c q st)) (snd (invoke c q st)).
Proof. cbn [execute]. by destruct (invoke c q st). Qed.

Lemma session_cons (c : call) (calls : list call) (q : list task) (st : state) :
  session (c :: calls) q st
  = session calls
      (fst (invoke c (fst (event_loop fuel q st)) (snd (event_loop fuel q st))))
      (snd (invoke c (fst (event_loop fuel q st)) (snd (event_loop fuel q st)))).
Proof.
  cbn [session]. destruct (event_loop fuel q st) as [q1 st1]. cbn [fst snd].
  by destruct (invoke c q1 st1).
Qed.

(** A serial execution is a session. *)
Lemma execute_serially (calls : list call) (q : list task) (st : state) :
  execute (serially calls) q st = session calls q st.
Proof.
  revert q st. unfold serially.
  induction calls as [|c calls IH]; intros q st.
  - cbn [flat_map]. rewrite execute_Turns. cbn [execute session].
    by destruct (event_loop fuel q st).
  - cbn [flat_map app]. rewrite execute_Turns, execute_Call, session_cons.
    apply IH.
Qed.

(** A widget just built, taken through calls made one after the other. *)
Lemma construct_session (el el' : element) (q0 : list task) (st0 : state)
    (calls : list call) :
  construct el = (el', Normal (q0, st0)) ->
  exists st, session calls q0 st0 = ([], st) /\ settled_in_order st.
Proof.
  unfold construct, getDataTemplate.
  destruct (assert (dataTemplate el) _) as [template|msg]; [|done].
  set (sd := JsString.replace template "{{ adSandbox }}" defaultIframeSandbox).
  pose proof (constructor_run sd) as Hrun. cbv zeta in Hrun.
  destruct (run_job (Method "constructor") constructorBody
              (State sd [] None None (Link None EmptyString) [])) as [st1 q].
  cbn [fst snd] in Hrun. intros [= _ <- <-].
  rewrite (session_drain _ _ _ _ Hrun).
  apply session_keeps_order.
  unfold settled_in_order, idle. split_and!; reflexivity.
Qed.

End ExecutionFacts.

Section ExecutionClaims.
Context `{Browser}.


End ExecutionClaims.



(** * Further properties

    What the code does beyond the claims: how the patches compose, what
    [metaCtaRe] finds, what the constructor and the two updates leave
    behind, and how the build script fails. *)

(** ** More on strings *)

Section MoreStringFacts.

(** Whether a pattern stands at the start of a text depends on as many
    characters as the pattern has. *)
Lemma strip_prefix_ext (p x y y' : string) :
  String.length p <= String.length x ->
  strip_prefix p (x +:+ y) = None -> strip_prefix p (x +:+ y') = None.
Proof.
  revert x. induction p as [|a p IH]; intros x Hlen; simpl; [done |].
  destruct x as [|b x]; simpl in *; [lia |].
  destruct (Ascii.eqb a b); [|done]. apply IH. lia.
Qed.

Lemma indexOf_split_eq (pat s : string) :
  indexOf_split pat s =
  match strip_prefix pat s with
  | Some rest => Some (EmptyString, rest)
  | None =>
      match s with
      | EmptyString => None
      | String c s' =>
          match indexOf_split pat s' with
          | Some (before, after) => Some (String c before, after)
          | None => None
          end
      end
  end.
Proof. by destruct s. Qed.

(** Where the first occurrence stands does not depend on what follows
    it. *)
Lemma indexOf_split_ext (pat before after after' : string) :
  indexOf_split pat (before +:+ pat +:+ after) = Some (before, after) ->
  indexOf_split pat (before +:+ pat +:+ after') = Some (before, after').
Proof.
  induction before as [|c bf IH].
  - rewrite (indexOf_split_eq pat (EmptyString +:+ pat +:+ after')).
    intros _. change (EmptyString +:+ pat +:+ after') with (pat +:+ after').
    by rewrite strip_prefix_app.
  - rewrite (indexOf_split_eq pat (String c bf +:+ pat +:+ after)),
      (indexOf_split_eq pat (String c bf +:+ pat +:+ after')).
    destruct (strip_prefix pat (String c bf +:+ pat +:+ after)) as [r|] eqn:E;
      [by intros [=] |].
    rewrite <- append_assoc in E.
    apply (strip_prefix_ext _ _ _ after') in E;
      [| rewrite length_append; lia].
    rewrite append_assoc in E. rewrite E.
    change (String c bf +:+ pat +:+ after) with (String c (bf +:+ pat +:+ after)).
    change (String c bf +:+ pat +:+ after') with (String c (bf +:+ pat +:+ after')).
    cbv iota.
    destruct (indexOf_split pat (bf +:+ pat +:+ after)) as [[b0 a0]|] eqn:E0;
      [|done].
    intros [= -> ->]. by rewrite (IH eq_refl).
Qed.

Lemma append_split (a b c d : string) :
  a +:+ b = c +:+ d -> String.length c <= String.length a ->
  exists u, a = c +:+ u /\ d = u +:+ b.
Proof.
  revert a. induction c as [|x c IH]; intros a E Hlen.
  - exists a. by simpl in *.
  - destruct a as [|y a]; simpl in *; [lia |].
    injection E as -> E. destruct (IH a E) as (u & -> & ->); [lia |].
    by exists u.
Qed.

Lemma append_inj_length (a b c d : string) :
  a +:+ b = c +:+ d -> String.length a = String.length c -> a = c /\ b = d.
Proof.
  intros E Hlen. destruct (append_split a b c d E) as (u & -> & ->); [lia |].
  rewrite length_append in Hlen. destruct u; simpl in Hlen; [|lia].
  by rewrite append_nil_r.
Qed.

Lemma append_inv_tail (a b r : string) : a +:+ r = b +:+ r -> a = b.
Proof.
  intros E. apply (append_inj_length _ _ _ _ E).
  apply (f_equal String.length) in E. rewrite !length_append in E. lia.
Qed.

(** The first occurrence, given by its place. *)
Lemma indexOf_split_at (pat s before after : string) :
  s = before +:+ pat +:+ after ->
  (forall b a, s = b +:+ pat +:+ a -> String.length before <= String.length b) ->
  indexOf_split pat s = Some (before, after).
Proof.
  intros Hs Hfirst.
  destruct (indexOf_split pat s) as [[b0 a0]|] eqn:E.
  - pose proof (indexOf_split_Some _ _ _ _ E) as Hs0.
    pose proof (indexOf_split_first _ _ _ _ E before after Hs) as H1.
    pose proof (Hfirst b0 a0 Hs0) as H2.
    rewrite Hs in Hs0.
    destruct (append_inj_length _ _ _ _ Hs0) as [-> Hrest]; [lia |].
    apply append_inv_head in Hrest. by subst a0.
  - by destruct (indexOf_split_None _ _ E before after).
Qed.

(** A text is split at its first [c] in one way only. *)
Lemma lacks_split (c : ascii) (x y x' y' : string) :
  lacks c x -> lacks c x' ->
  x +:+ String c y = x' +:+ String c y' -> x = x' /\ y = y'.
Proof.
  revert x'. induction x as [|a x IH]; intros x' Hx Hx' E.
  - destruct x' as [|a' x']; simpl in E.
    + by injection E as ->.
    + injection E as <- _. apply lacks_cons in Hx' as [Hc _]. done.
  - apply lacks_cons in Hx as [Ha Hx]. destruct x' as [|a' x']; simpl in E.
    + injection E as -> _. done.
    + injection E as -> E. apply lacks_cons in Hx' as [_ Hx'].
      destruct (IH x' Hx Hx' E) as [-> ->]. done.
Qed.

Lemma lacks_app (c : ascii) (x y : string) :
  lacks c x -> lacks c y -> lacks c (x +:+ y).
Proof.
  intros Hx Hy. induction x as [|a x IH]; [done |].
  apply lacks_cons in Hx as [Ha Hx]. simpl. apply lacks_cons. auto.
Qed.

Lemma lacks_one (c d : ascii) : d <> c -> lacks c (String d EmptyString).
Proof. intros Hd. apply lacks_cons. split; [done | apply lacks_nil]. Qed.

Lemma lacks_app_inv (c : ascii) (x y : string) :
  lacks c (x +:+ y) -> lacks c x /\ lacks c y.
Proof.
  intros Hl. split.
  - intros u v ->. apply (Hl u (v +:+ y)). by rewrite append_assoc.
  - intros u v ->. apply (Hl (x +:+ u) v). by rewrite append_assoc.
Qed.

(** [includes], to decide that a pattern does not occur. *)
Lemma absent_includes (pat s : string) :
  includes s pat = false -> forall b a, s <> b +:+ pat +:+ a.
Proof.
  unfold includes. destruct (indexOf_split pat s) as [[b0 a0]|] eqn:E; [done |].
  intros _. by apply indexOf_split_None.
Qed.

Lemma lacks_includes (c : ascii) (s : string) :
  includes s (String c EmptyString) = false -> lacks c s.
Proof. intros Hs x y. by apply (absent_includes _ _ Hs x y). Qed.

End MoreStringFacts.

(** ** More on the matcher *)

Section MoreRegExpFacts.

Lemma strip_lit_avoids (ci : bool) (c : ascii) (p s rest : string) :
  mem ci c p = false ->
  strip_lit ci p s = Some rest -> exists q, s = q +:+ rest /\ lacks c q.
Proof.
  revert s. induction p as [|a p IH]; intros s Hm; simpl.
  - intros [= ->]. exists EmptyString. split; [done | apply lacks_nil].
  - simpl in Hm. apply orb_false_iff in Hm as [Ha Hm].
    destruct s as [|b s]; [done |].
    destruct (chr_eq ci a b) eqn:Eb; [|done].
    intros E. destruct (IH _ Hm E) as (q & -> & Hq).
    exists (String b q). split; [done |]. apply lacks_cons. split; [|done].
    intros ->. congruence.
Qed.

Lemma star_avoids {R : Type} (ci : bool) (a : atom) (c : ascii)
    (k : cont (R := R)) (caps : list string) (s : string) (res : R) :
  atom_matches ci a c = false ->
  star ci a k caps s = Some res ->
  exists p rest, s = p +:+ rest /\ lacks c p /\ k caps rest = Some res.
Proof.
  intros Ha. induction s as [|d s IH]; simpl.
  - intros E. exists EmptyString, EmptyString. eauto using lacks_nil.
  - destruct (atom_matches ci a d) eqn:Ed.
    + destruct (star ci a k caps s) as [r|] eqn:E.
      * intros [= ->]. destruct (IH eq_refl) as (p & rest & -> & Hp & Hk).
        exists (String d p), rest. split_and!; [done | | done].
        apply lacks_cons. split; [|done]. intros ->. congruence.
      * intros Hk. exists EmptyString, (String d s). eauto using lacks_nil.
    + intros Hk. exists EmptyString, (String d s). eauto using lacks_nil.
Qed.

(** A pattern none of whose parts takes the character [c] consumes a text
    without [c]. *)
Lemma rmatch_avoids {R : Type} (ci : bool) (c : ascii) (r : regex) :
  avoids ci c r = true ->
  forall (k : cont (R := R)) (caps : list string) (s : string) (res : R),
  rmatch ci r k caps s = Some res ->
  exists caps' p rest, s = p +:+ rest /\ lacks c p /\ k caps' rest = Some res.
Proof.
  induction r as [a|lit|r1 IH1 r2 IH2|r1 IH1 r2 IH2|a|a|a|r1 IH1];
    intros Hav k caps s res; simpl in Hav |- *.
  - apply negb_true_iff in Hav. destruct s as [|d s]; [done |].
    destruct (atom_matches ci a d) eqn:Ed; [|done].
    intros Hk. exists caps, (String d EmptyString), s.
    split_and!; [done | | done]. apply lacks_one. intros ->. congruence.
  - apply negb_true_iff in Hav.
    destruct (strip_lit ci lit s) as [rest|] eqn:E; [|done].
    intros Hk. destruct (strip_lit_avoids _ _ _ _ _ Hav E) as (q & -> & Hq).
    by exists caps, q, rest.
  - apply andb_true_iff in Hav as [H1 H2].
    intros E. destruct (IH1 H1 _ _ _ _ E) as (caps1 & p1 & rest1 & -> & Hl1 & E1).
    destruct (IH2 H2 _ _ _ _ E1) as (caps2 & p2 & rest2 & -> & Hl2 & E2).
    exists caps2, (p1 +:+ p2), rest2. rewrite append_assoc.
    split_and!; [done | by apply lacks_app | done].
  - apply andb_true_iff in Hav as [H1 H2].
    destruct (rmatch ci r1 k caps s) as [r|] eqn:E.
    + intros [= ->]. by apply (IH1 H1 _ _ _ _ E).
    + by apply IH2.
  - apply negb_true_iff in Hav.
    intros E. destruct (star_avoids _ _ _ _ _ _ _ Hav E) as (p & rest & -> & Hp & Hk).
    by exists caps, p, rest.
  - apply negb_true_iff in Hav. destruct s as [|d s]; [done |].
    destruct (atom_matches ci a d) eqn:Ed; [|done].
    intros E. destruct (star_avoids _ _ _ _ _ _ _ Hav E) as (p & rest & -> & Hp & Hk).
    exists caps, (String d p), rest. split_and!; [done | | done].
    apply lacks_cons. split; [|done]. intros ->. congruence.
  - apply negb_true_iff in Hav. destruct s as [|d s].
    + intros Hk. exists caps, EmptyString, EmptyString. eauto using lacks_nil.
    + destruct (atom_matches ci a d) eqn:Ed.
      * destruct (k caps s) as [r|] eqn:E.
        -- intros [= ->]. exists caps, (String d EmptyString), s.
           split_and!; [done | | done]. apply lacks_one. intros ->. congruence.
        -- intros Hk. exists caps, EmptyString, (String d s).
           eauto using lacks_nil.
      * intros Hk. exists caps, EmptyString, (String d s). eauto using lacks_nil.
  - intros E. destruct (IH1 Hav _ _ _ _ E) as (caps1 & p1 & rest1 & -> & Hl & E1).
    eauto 6.
Qed.

(** Under the [i] flag too, only [<] equals [<] and only [>] equals [>]. *)
Lemma chr_eq_lt (ci : bool) (b : ascii) : chr_eq ci "<" b = true -> b = "<"%char.
Proof.
  destruct ci, b as [[] [] [] [] [] [] [] []]; vm_compute; congruence.
Qed.

Lemma chr_eq_gt (ci : bool) (b : ascii) : chr_eq ci ">" b = true -> b = ">"%char.
Proof.
  destruct ci, b as [[] [] [] [] [] [] [] []]; vm_compute; congruence.
Qed.

(** Every text [match] returns is matched by the pattern where it stands
    in the input. *)
Lemma match_all_from_spec (ci : bool) (r : regex) (docStr : string) (fuel : nat) :
  forall pre0 s, docStr = pre0 +:+ s ->
  Forall (fun m => exists pre caps post,
            docStr = pre +:+ m +:+ post /\
            match_here ci r (m +:+ post) = Some (m, caps, post))
    (match_all_from fuel ci r s).
Proof.
  induction fuel as [|fuel IH]; intros pre0 s Hdoc; cbn [match_all_from];
    [by constructor |].
  destruct (exec ci r s) as [m|] eqn:E; [|by constructor].
  destruct (exec_Some _ _ _ _ E) as [Hs Hm].
  constructor.
  - exists (pre0 +:+ m_before m), (m_captures m), (m_after m).
    split; [|done]. by rewrite Hdoc, Hs, !append_assoc.
  - assert (Hrest : docStr = (pre0 +:+ m_before m +:+ m_text m) +:+ m_after m)
      by (by rewrite Hdoc, Hs, !append_assoc).
    destruct (m_text m) as [|c t] eqn:Et.
    + destruct (m_after m) as [|d rest] eqn:Ea; [by constructor |].
      apply (IH ((pre0 +:+ m_before m +:+ EmptyString) +:+ String d EmptyString)).
      by rewrite Hrest, !append_assoc.
    + by apply (IH (pre0 +:+ m_before m +:+ String c t)).
Qed.

Lemma strip_lit_more (ci : bool) (p s r rest : string) :
  strip_lit ci p s = Some r -> strip_lit ci p (s +:+ rest) = Some (r +:+ rest).
Proof.
  revert s. induction p as [|a p IH]; intros s; simpl.
  - by intros [= ->].
  - destruct s as [|b s]; [done |]. simpl.
    destruct (chr_eq ci a b); [apply IH | done].
Qed.

Lemma strip_lit_whole_lacks (ci : bool) (c : ascii) (p s : string) :
  mem ci c p = false -> strip_lit ci p s = Some EmptyString -> lacks c s.
Proof.
  intros Hm Hs. destruct (strip_lit_avoids _ _ _ _ _ Hm Hs) as (q & -> & Hq).
  by rewrite append_nil_r.
Qed.

Lemma accepts_lit (ci : bool) (p s : string) :
  strip_lit ci p s = Some EmptyString -> accepts ci (Lit p) s.
Proof.
  intros Hs R k rest Hk caps. cbn [rmatch].
  by rewrite (strip_lit_more _ _ _ _ rest Hs).
Qed.

Lemma accepts_seq (ci : bool) (r1 r2 : regex) (p1 p2 : string) :
  accepts ci r1 p1 -> accepts ci r2 p2 -> accepts ci (Seq r1 r2) (p1 +:+ p2).
Proof.
  intros H1 H2 R k rest Hk caps. cbn [rmatch]. rewrite append_assoc.
  apply H1. intros caps'. by apply H2.
Qed.

Lemma accepts_alt (ci : bool) (r1 r2 : regex) (p : string) :
  accepts ci r1 p \/ accepts ci r2 p -> accepts ci (Alt r1 r2) p.
Proof.
  intros Hr R k rest Hk caps. cbn [rmatch].
  destruct (rmatch ci r1 k caps (p +:+ rest)) as [res|] eqn:E; [done |].
  destruct Hr as [H1|H2]; [|by apply H2].
  by destruct (H1 R k rest Hk caps).
Qed.

Lemma accepts_group (ci : bool) (r : regex) (p : string) :
  accepts ci r p -> accepts ci (Group r) p.
Proof.
  intros Hr R k rest Hk caps. cbn [rmatch]. apply Hr. intros caps'. apply Hk.
Qed.

Lemma star_stops {R : Type} (ci : bool) (a : atom) (k : cont (R := R))
    (caps : list string) (s : string) :
  k caps s <> None -> star ci a k caps s <> None.
Proof.
  intros Hk. destruct s as [|c s]; cbn [star]; [done |].
  destruct (atom_matches ci a c); [|done].
  by destruct (star ci a k caps s).
Qed.

Lemma accepts_star_notgt (ci : bool) (p : string) :
  lacks ">" p -> accepts ci (Star (NoneOf ">")) p.
Proof.
  intros Hl R k rest Hk caps. cbn [rmatch].
  induction p as [|c p IH]; [by apply star_stops |].
  apply lacks_cons in Hl as [Hc Hl]. specialize (IH Hl).
  cbn [String.append star atom_matches mem].
  destruct (chr_eq ci ">" c) eqn:Ec; [by apply chr_eq_gt in Ec |].
  cbn [orb negb].
  by destruct (star ci (NoneOf ">") k caps (p +:+ rest)).
Qed.

Lemma accepts_plus_one (ci : bool) (a : atom) (c : ascii) :
  atom_matches ci a c = true -> accepts ci (Plus a) (String c EmptyString).
Proof.
  intros Hc R k rest Hk caps. cbn [rmatch String.append]. rewrite Hc.
  by apply star_stops.
Qed.

Lemma accepts_opt_none (ci : bool) (a : atom) : accepts ci (Opt a) EmptyString.
Proof.
  intros R k rest Hk caps. cbn [rmatch String.append].
  destruct rest as [|c s]; [done |].
  destruct (atom_matches ci a c); [|done].
  by destruct (k caps s).
Qed.

Lemma accepts_opt_one (ci : bool) (a : atom) (c : ascii) :
  atom_matches ci a c = true -> accepts ci (Opt a) (String c EmptyString).
Proof.
  intros Hc R k rest Hk caps. cbn [rmatch String.append]. rewrite Hc.
  destruct (k caps rest) eqn:E; [done |]. by destruct (Hk caps).
Qed.

Lemma accepts_match_here (ci : bool) (r : regex) (p rest : string) :
  accepts ci r p -> match_here ci r (p +:+ rest) <> None.
Proof. intros Hr. unfold match_here. by apply Hr. Qed.

End MoreRegExpFacts.

Section EndsFacts.
Context {R : Type}.

Lemma rmatch_Lit_Seq (ci : bool) (p : string) (r : regex) (k : cont (R := R))
    (caps : list string) (s : string) :
  rmatch ci (Seq (Lit p) r) k caps s
  = match strip_lit ci p s with
    | Some rest => rmatch ci r k caps rest
    | None => None
    end.
Proof. reflexivity. Qed.

(** [>] as a pattern takes a [>]. *)
Lemma rmatch_gt (ci : bool) (k : cont (R := R)) (caps : list string)
    (s : string) (res : R) :
  rmatch ci (Lit ">") k caps s = Some res ->
  exists caps' x rest,
    s = x +:+ String ">" rest /\ lacks ">" x /\ k caps' rest = Some res.
Proof.
  cbn [rmatch strip_lit]. destruct s as [|b s]; [done |].
  destruct (chr_eq ci ">" b) eqn:Eb; [|done].
  apply chr_eq_gt in Eb as ->. intros Hk.
  exists caps, EmptyString, s. eauto using lacks_nil.
Qed.

(** A part that takes no [>], then a pattern that stops at the first [>]. *)
Lemma rmatch_seq_gt (ci : bool) (r1 r2 : regex) :
  avoids ci ">" r1 = true ->
  (forall (k : cont (R := R)) caps s res,
     rmatch ci r2 k caps s = Some res ->
     exists caps' x rest,
       s = x +:+ String ">" rest /\ lacks ">" x /\ k caps' rest = Some res) ->
  forall (k : cont (R := R)) caps s res,
    rmatch ci (Seq r1 r2) k caps s = Some res ->
    exists caps' x rest,
      s = x +:+ String ">" rest /\ lacks ">" x /\ k caps' rest = Some res.
Proof.
  intros H1 H2 k caps s res E. cbn [rmatch] in E.
  destruct (rmatch_avoids _ _ _ H1 _ _ _ _ E) as (caps1 & p & rest1 & -> & Hp & E1).
  destruct (H2 _ _ _ _ E1) as (caps2 & x & rest & -> & Hx & Hk).
  exists caps2, (p +:+ x), rest. rewrite append_assoc.
  split_and!; [done | by apply lacks_app | done].
Qed.

End EndsFacts.

(** ** The patches, composed *)

Section PatchProperties.
Context `{Browser}.

(** [addScriptToHead], the first [<head>] given by its place. *)
Lemma addScriptToHead_at (docStr headContent before after : string) :
  docStr = before +:+ "<head>" +:+ after ->
  (forall b a, docStr = b +:+ "<head>" +:+ a ->
     String.length before <= String.length b) ->
  hasReplacementPattern headContent = false ->
  addScriptToHead docStr headContent
    = before +:+ "<head>" +:+ headContent +:+ after.
Proof.
  intros Hs Hfirst Hplain. unfold addScriptToHead, JsString.replace.
  rewrite (indexOf_split_at _ _ _ _ Hs Hfirst).
  rewrite getSubstitution_literal by exact Hplain.
  by rewrite append_assoc.
Qed.

(** After an insertion the first [<head>] stands where it stood. *)
Lemma head_first_stays (before after after' : string) :
  (forall b a, before +:+ "<head>" +:+ after = b +:+ "<head>" +:+ a ->
     String.length before <= String.length b) ->
  forall b a, before +:+ "<head>" +:+ after' = b +:+ "<head>" +:+ a ->
    String.length before <= String.length b.
Proof.
  intros Hfirst.
  pose proof (indexOf_split_at "<head>" _ before after eq_refl Hfirst) as E.
  apply (indexOf_split_ext _ _ _ after') in E.
  intros b a Hs. exact (indexOf_split_first _ _ _ _ E b a Hs).
Qed.

(** [setBodyAmpStoryVisible], the first [<body] given by its place. *)
Lemma setBodyAmpStoryVisible_at (pfx attrs post : string) :
  (forall x y, pfx <> x +:+ "<body" +:+ y) ->
  lacks ">" attrs ->
  setBodyAmpStoryVisible (pfx +:+ "<body" +:+ attrs +:+ ">" +:+ post)
    = pfx +:+ "<body" +:+ attrs +:+ " amp-story-visible>" +:+ post.
Proof.
  intros Hno Hl.
  destruct (setBodyAmpStoryVisible_tag _ pfx attrs post eq_refl Hl)
    as (before & attrs' & after & Hdoc & Hl' & Hfirst & ->).
  pose proof (Hfirst pfx attrs post eq_refl Hl) as Hlen.
  destruct (append_split _ _ _ _ Hdoc Hlen) as (u & -> & Hu).
  destruct u as [|c1 u].
  - rewrite append_nil_r in *. simpl in Hu.
    injection Hu as Hu.
    change (attrs' +:+ ">" +:+ after) with (attrs' +:+ String ">" after) in Hu.
    change (attrs +:+ ">" +:+ post) with (attrs +:+ String ">" post) in Hu.
    destruct (lacks_split _ _ _ _ _ Hl' Hl Hu) as [-> ->]. done.
  - exfalso.
    destruct u as [|c2 [|c3 [|c4 [|c5 u]]]]; simpl in Hu; try discriminate.
    injection Hu as <- <- <- <- <- _.
    by apply (Hno before u).
Qed.

(** [patchOuter] puts both patches right behind the first [<head>] of the
    story document, the navigation patch (the page id filled in) in front
    of the CSS patch, and changes nothing else; this for patches that hold
    none of [$$], [$&], [$`] and [$']. *)
Theorem patchOuter_navigation_before_css (str pageId before after : string) :
  str = before +:+ "<head>" +:+ after ->
  (forall b a, str = b +:+ "<head>" +:+ a ->
     String.length before <= String.length b) ->
  hasReplacementPattern cssPatch = false ->
  hasReplacementPattern (JsString.replace navigationPatch "$pageId$" pageId)
    = false ->
  storyCssPatch str = before +:+ "<head>" +:+ cssPatch +:+ after /\
  patchOuter str pageId
    = before +:+ "<head>"
      +:+ JsString.replace navigationPatch "$pageId$" pageId
      +:+ cssPatch +:+ after.
Proof.
  intros Hs Hfirst Hcss Hnav.
  assert (Hc : storyCssPatch str = before +:+ "<head>" +:+ cssPatch +:+ after)
    by (by apply addScriptToHead_at).
  split; [exact Hc |].
  unfold patchOuter, storyNavigationPatch. rewrite Hc.
  apply addScriptToHead_at; [done | | done].
  subst str. by apply (head_first_stays before after).
Qed.

(** [storyNavigationPatch] fills the page id into the first [$pageId$] of
    [navigationPatch] and into no other; when [navigationPatch] holds no
    [$pageId$] the page id is not used at all. *)
Theorem storyNavigationPatch_page_id (docStr pageId : string) :
  ((forall a b, navigationPatch <> a +:+ "$pageId$" +:+ b) ->
   storyNavigationPatch docStr pageId = addScriptToHead docStr navigationPatch) /\
  (forall a b,
     navigationPatch = a +:+ "$pageId$" +:+ b ->
     (forall a' b', navigationPatch = a' +:+ "$pageId$" +:+ b' ->
        String.length a <= String.length a') ->
     hasReplacementPattern pageId = false ->
     storyNavigationPatch docStr pageId
       = addScriptToHead docStr (a +:+ pageId +:+ b)).
Proof.
  unfold storyNavigationPatch. split.
  - intros Hno. by rewrite replace_absent.
  - intros a b Hn Hfirst Hplain. unfold JsString.replace.
    rewrite (indexOf_split_at _ _ _ _ Hn Hfirst).
    by rewrite getSubstitution_literal.
Qed.

(** [patch] on an ad document with a [<head>] and, behind it, a [<body ...>]
    tag: the HTTPS patch goes right behind the first [<head>], the
    attribute [amp-story-visible] into the [<body ...>] tag, and nothing
    else changes.  The patch has to hold none of [$$], [$&], [$`], [$'],
    and no [<body] may stand before the tag once the patch is in. *)
Theorem patch_head_then_body (docStr before mid attrs post : string) :
  docStr = before +:+ "<head>" +:+ mid +:+ "<body" +:+ attrs +:+ ">" +:+ post ->
  (forall b a, docStr = b +:+ "<head>" +:+ a ->
     String.length before <= String.length b) ->
  hasReplacementPattern httpsCircumventionPatch = false ->
  (forall x y,
     before +:+ "<head>" +:+ httpsCircumventionPatch +:+ mid
       <> x +:+ "<body" +:+ y) ->
  lacks ">" attrs ->
  patch docStr
    = before +:+ "<head>" +:+ httpsCircumventionPatch +:+ mid
      +:+ "<body" +:+ attrs +:+ " amp-story-visible>" +:+ post.
Proof.
  intros Hs Hfirst Hplain Hno Hl. unfold patch, insertHttpsCircumventionPatch.
  rewrite (addScriptToHead_at _ _ before
             (mid +:+ "<body" +:+ attrs +:+ ">" +:+ post)) by done.
  pose proof (setBodyAmpStoryVisible_at
                (before +:+ "<head>" +:+ httpsCircumventionPatch +:+ mid)
                attrs post Hno Hl) as Hb.
  rewrite !append_assoc in Hb. 
  change ("<head>" +:+ httpsCircumventionPatch +:+ mid +:+ "<body" +:+ attrs +:+ ">" +:+ post)
    with (("<head>" +:+ httpsCircumventionPatch) +:+ mid +:+ "<body" +:+ attrs +:+ ">" +:+ post) in Hb.
  exact Hb.
Qed.

End PatchProperties.

Lemma patchOuter_navigation_before_css_witness :
  patchOuter "<html><head><title>Story</title></head><body></body></html>" "cover"
  = "<html><head><script>go('cover')</script><style>amp-story{}</style><title>Story</title></head><body></body></html>".
Proof.
  destruct (patchOuter_navigation_before_css
              "<html><head><title>Story</title></head><body></body></html>"
              "cover" "<html>" "<title>Story</title></head><body></body></html>")
    as [_ Hp].
  - reflexivity.
  - apply (indexOf_split_first "<head>" _ "<html>"
             "<title>Story</title></head><body></body></html>").
    reflexivity.
  - reflexivity.
  - reflexivity.
  - rewrite Hp. vm_compute. reflexivity.
Defined.

Lemma storyNavigationPatch_page_id_witness :
  storyNavigationPatch "<head></head>" "page-1"
  = addScriptToHead "<head></head>" "<script>go('page-1')</script>".
Proof.
  apply (proj2 (storyNavigationPatch_page_id "<head></head>" "page-1")
           "<script>go('" "')</script>").
  - reflexivity.
  - by apply (indexOf_split_first "$pageId$" _ "<script>go('" "')</script>").
  - reflexivity.
Defined.

Lemma patch_head_then_body_witness :
  patch "<html><head><title>Ad</title></head><body class='ad'><p>Ad</p></body></html>"
  = "<html><head>" +:+ httpsCircumventionPatch
    +:+ "<title>Ad</title></head><body class='ad' amp-story-visible><p>Ad</p></body></html>".
Proof.
  apply (patch_head_then_body _ "<html>" "<title>Ad</title></head>"
           " class='ad'" "<p>Ad</p></body></html>").
  - reflexivity.
  - by apply (indexOf_split_first "<head>" _ "<html>"
                "<title>Ad</title></head><body class='ad'><p>Ad</p></body></html>").
  - reflexivity.
  - by apply absent_includes.
  - by apply lacks_includes.
Defined.

(** ** What [metaCtaRe] finds *)

Section MetaTagProperties.
Context `{Browser}.

(** [metaCtaRe] stops at the first [>]. *)
Lemma metaCtaRe_ends {R : Type} (k : cont (R := R)) (caps : list string)
    (s : string) (res : R) :
  rmatch true metaCtaRe k caps s = Some res ->
  exists caps' x rest,
    s = x +:+ String ">" rest /\ lacks ">" x /\ k caps' rest = Some res.
Proof.
  revert k caps s res. unfold metaCtaRe.
  repeat (apply rmatch_seq_gt; [reflexivity |]).
  apply rmatch_gt.
Qed.

(** What [metaCtaRe] matches: a [<], a text without [>], and a [>]. *)
Lemma metaCtaRe_match (s text : string) (caps : list string) (rest : string) :
  match_here true metaCtaRe s = Some (text, caps, rest) ->
  exists inner, text = "<" +:+ inner +:+ ">" /\ lacks ">" inner.
Proof.
  intros E. pose proof (match_here_split _ _ _ _ _ _ E) as Hs.
  unfold match_here in E.
  assert (exists s', s = String "<" s') as (s' & Hlt).
  { unfold metaCtaRe in E. rewrite rmatch_Lit_Seq in E.
    destruct s as [|b s]; [done |]. cbn [strip_lit] in E.
    destruct (chr_eq true "<" b) eqn:Eb; [|done].
    apply chr_eq_lt in Eb as ->. by exists s. }
  destruct (metaCtaRe_ends _ _ _ _ E) as (caps' & x & rest' & Hx & Hl & Hk).
  injection Hk as _ _ ->.
  rewrite Hx in Hs.
  change (x +:+ String ">" rest) with (x +:+ ">" +:+ rest) in Hs.
  rewrite <- append_assoc in Hs. apply append_inv_tail in Hs. subst text.
  rewrite Hlt in Hx. destruct x as [|c x]; simpl in Hx.
  - injection Hx as Hc _. done.
  - injection Hx as <- _. apply lacks_cons in Hl as [_ Hl].
    by exists x.
Qed.

(** A CTA [<meta>] tag, in any letter case, as [metaCtaRe] is written to
    find it. *)
Lemma metaCtaRe_accepts (meta_ : string) (ws : ascii)
    (a1 name_ q1 cta_ kind q2 a2 : string) :
  strip_lit true "<meta" meta_ = Some EmptyString ->
  is_space ws = true ->
  lacks ">" a1 ->
  strip_lit true "name=" name_ = Some EmptyString ->
  q1 = EmptyString \/ q1 = "'" \/ q1 = String dquote EmptyString ->
  strip_lit true "amp-cta-" cta_ = Some EmptyString ->
  strip_lit true "type" kind = Some EmptyString \/
  strip_lit true "url" kind = Some EmptyString ->
  q2 = EmptyString \/ q2 = "'" \/ q2 = String dquote EmptyString ->
  lacks ">" a2 ->
  accepts true metaCtaRe
    (meta_ +:+ String ws EmptyString +:+ a1 +:+ name_ +:+ q1 +:+ cta_
     +:+ kind +:+ q2 +:+ a2 +:+ ">") /\
  lacks ">"
    (meta_ +:+ String ws EmptyString +:+ a1 +:+ name_ +:+ q1 +:+ cta_
     +:+ kind +:+ q2 +:+ a2).
Proof.
  intros Hmeta Hws H1 Hname Hq1 Hcta Hkind Hq2 H2.
  assert (Hq : forall q,
            q = EmptyString \/ q = "'" \/ q = String dquote EmptyString ->
            accepts true (Opt quotes) q /\ lacks ">" q).
  { intros q [->|[->| ->]]; (split;
      [first [apply accepts_opt_none | by apply accepts_opt_one]
      | first [apply lacks_nil | by apply lacks_one]]). }
  split.
  - unfold metaCtaRe.
    repeat apply accepts_seq; try (by apply accepts_lit); try (by apply Hq).
    + by apply accepts_plus_one.
    + by apply accepts_star_notgt.
    + apply accepts_group, accepts_alt.
      destruct Hkind as [Hk|Hk]; [left | right]; by apply accepts_lit.
    + by apply accepts_star_notgt.
  - repeat apply lacks_app; try done; try (by apply Hq).
    + by apply (strip_lit_whole_lacks true ">" "<meta").
    + apply lacks_one. by intros ->.
    + by apply (strip_lit_whole_lacks true ">" "name=").
    + by apply (strip_lit_whole_lacks true ">" "amp-cta-").
    + destruct Hkind as [Hk|Hk];
        [by apply (strip_lit_whole_lacks true ">" "type")
        | by apply (strip_lit_whole_lacks true ">" "url")].
Qed.

(** A tag [metaCtaRe] matches is among the texts [match] returns, with at
    most a text without [>] in front of it. *)
Lemma match_all_from_finds (t post : string) (fuel : nat) :
  lacks ">" t ->
  match_here true metaCtaRe (t +:+ ">" +:+ post) <> None ->
  forall s pre,
    s = pre +:+ t +:+ ">" +:+ post ->
    String.length s < fuel ->
    exists m x,
      m ∈ match_all_from fuel true metaCtaRe s /\
      m = x +:+ t +:+ ">" /\ lacks ">" x.
Proof.
  intros Ht Htag. induction fuel as [|fuel IH]; intros s pre Hs Hlen; [lia |].
  cbn [match_all_from].
  destruct (exec true metaCtaRe s) as [m|] eqn:E.
  2: { by destruct (Htag (exec_None _ _ _ E pre _ Hs)). }
  destruct (exec_Some _ _ _ _ E) as [Hsplit Hm].
  destruct (metaCtaRe_match _ _ _ _ Hm) as (inner & Hmt & Hinner).
  pose proof (exec_first _ _ _ _ E pre _ Hs Htag) as Hfirst.
  rewrite Hs in Hsplit.
  destruct (append_split _ _ _ _ Hsplit Hfirst) as (u & Hpre & Hu).
  rewrite Hmt. cbn [String.append].
  change (String "<" (inner +:+ ">")) with ("<" +:+ inner +:+ ">").
  rewrite <- Hmt.
  destruct (le_lt_dec (String.length (m_text m)) (String.length u)) as [Hle|Hgt].
  - symmetry in Hu.
    destruct (append_split _ _ _ _ Hu Hle) as (v & Hv & Hma).
    destruct (IH (m_after m) v Hma) as (m' & x & Hin & Hm' & Hx).
    { rewrite Hs, Hpre, Hv, !length_append in Hlen.
      rewrite Hma, !length_append. rewrite Hmt in Hlen. simpl in Hlen.
      simpl. lia. }
    exists m', x. split; [by right | done].
  - destruct (append_split (m_text m) (m_after m) u (t +:+ ">" +:+ post) Hu)
      as (v & Hv & Hpost); [lia |].
    assert (Hi : ("<" +:+ inner) +:+ ">" = u +:+ v) by (by rewrite <- Hv, Hmt).
    destruct (append_split _ _ _ _ Hi) as (z & Hz & Hvz).
    { rewrite Hmt in Hgt. simpl in Hgt. rewrite length_append in Hgt.
      simpl in *. lia. }
    assert (Hl : lacks ">" ("<" +:+ inner))
      by (apply lacks_cons; split; [done | exact Hinner]).
    rewrite Hz in Hl. apply lacks_app_inv in Hl as [Hlu Hlz].
    rewrite Hvz in Hpost.
    change (t +:+ ">" +:+ post) with (t +:+ String ">" post) in Hpost.
    rewrite append_assoc in Hpost.
    change (z +:+ ">" +:+ m_after m) with (z +:+ String ">" (m_after m)) in Hpost.
    destruct (lacks_split _ _ _ _ _ Ht Hlz Hpost) as [-> _].
    exists (m_text m), u. split_and!; [by left | | done].
    by rewrite Hv, Hvz.
Qed.

Lemma match_global_needs_gt (docStr : string) :
  lacks "<" docStr \/ lacks ">" docStr ->
  match_global true metaCtaRe docStr = None.
Proof.
  intros Hl.
  destruct (match_global true metaCtaRe docStr) as [ms|] eqn:E; [|done].
  exfalso. unfold match_global in E.
  pose proof (match_all_from_spec true metaCtaRe docStr
                (S (String.length docStr)) EmptyString docStr eq_refl) as Hall.
  destruct (match_all_from (S (String.length docStr)) true metaCtaRe docStr)
    as [|m0 ms0]; [done |].
  apply Forall_cons in Hall as [(pre & caps & post & Hdoc & Hm) _].
  destruct (metaCtaRe_match _ _ _ _ Hm) as (inner & -> & _).
  destruct Hl as [Hl|Hl].
  - apply (Hl pre (inner +:+ ">" +:+ post)). by rewrite Hdoc, !append_assoc.
  - apply (Hl (pre +:+ "<" +:+ inner) post). by rewrite Hdoc, !append_assoc.
Qed.

(** What [setMetaCtaLink] hands to the HTML parser: every text
    [docStr.match(metaCtaRe)] returns is a piece of the ad document that
    starts with [<], ends with [>] and holds no other [>]; so a tag is cut
    at the first [>] it holds, also one inside an attribute value. *)
Theorem metaCtaRe_matches_single_tags (docStr : string) (ms : list string) :
  match_global true metaCtaRe docStr = Some ms ->
  ms <> [] /\
  Forall (fun m =>
            (exists pre post, docStr = pre +:+ m +:+ post) /\
            exists inner, m = "<" +:+ inner +:+ ">" /\ lacks ">" inner) ms.
Proof.
  unfold match_global. intros E.
  pose proof (match_all_from_spec true metaCtaRe docStr
                (S (String.length docStr)) EmptyString docStr eq_refl) as Hall.
  destruct (match_all_from (S (String.length docStr)) true metaCtaRe docStr)
    as [|m0 ms0]; [done |].
  injection E as <-. split; [done |].
  eapply Forall_impl; [exact Hall |].
  intros m (pre & caps & post & Hdoc & Hm). split; [by eauto |].
  by apply (metaCtaRe_match _ _ _ _ Hm).
Qed.

(** [metaCtaRe] misses no CTA tag.  A tag made of [<meta], a white space,
    any attributes, [name=], the name [amp-cta-type] or [amp-cta-url] with
    or without quotes, any attributes and [>], its letters in any case,
    wherever it stands in the ad document, ends one of the texts handed to
    the parser; in front of it that text holds at most a text without
    [>]. *)
Theorem cta_meta_tag_is_matched (docStr pre post meta_ : string) (ws : ascii)
    (a1 name_ q1 cta_ kind q2 a2 : string) :
  docStr = pre +:+ meta_ +:+ String ws EmptyString +:+ a1 +:+ name_ +:+ q1
           +:+ cta_ +:+ kind +:+ q2 +:+ a2 +:+ ">" +:+ post ->
  strip_lit true "<meta" meta_ = Some EmptyString ->
  is_space ws = true ->
  lacks ">" a1 ->
  strip_lit true "name=" name_ = Some EmptyString ->
  q1 = EmptyString \/ q1 = "'" \/ q1 = String dquote EmptyString ->
  strip_lit true "amp-cta-" cta_ = Some EmptyString ->
  strip_lit true "type" kind = Some EmptyString \/
  strip_lit true "url" kind = Some EmptyString ->
  q2 = EmptyString \/ q2 = "'" \/ q2 = String dquote EmptyString ->
  lacks ">" a2 ->
  exists ms m x,
    match_global true metaCtaRe docStr = Some ms /\
    m ∈ ms /\
    m = x +:+ meta_ +:+ String ws EmptyString +:+ a1 +:+ name_ +:+ q1
        +:+ cta_ +:+ kind +:+ q2 +:+ a2 +:+ ">" /\
    lacks ">" x.
Proof.
  intros Hdoc Hmeta Hws H1 Hname Hq1 Hcta Hkind Hq2 H2.
  destruct (metaCtaRe_accepts meta_ ws a1 name_ q1 cta_ kind q2 a2
              Hmeta Hws H1 Hname Hq1 Hcta Hkind Hq2 H2) as [Hacc Ht].
  set (t := meta_ +:+ String ws EmptyString +:+ a1 +:+ name_ +:+ q1
            +:+ cta_ +:+ kind +:+ q2 +:+ a2) in *.
  assert (Htag : meta_ +:+ String ws EmptyString +:+ a1 +:+ name_ +:+ q1
                 +:+ cta_ +:+ kind +:+ q2 +:+ a2 +:+ ">" = t +:+ ">").
  { subst t. by rewrite !append_assoc. }
  rewrite Htag in Hacc.
  destruct (match_all_from_finds t post (S (String.length docStr)) Ht)
    with (s := docStr) (pre := pre) as (m & x & Hin & Hm & Hx).
  - rewrite <- append_assoc. by apply accepts_match_here.
  - rewrite Hdoc. subst t. by rewrite !append_assoc.
  - lia.
  - unfold match_global.
    destruct (match_all_from (S (String.length docStr)) true metaCtaRe docStr)
      as [|m0 ms0] eqn:E; [by apply elem_of_nil in Hin |].
    exists (m0 :: ms0), m, x. split_and!; [done | done | | done].
    rewrite Hm. subst t. by rewrite !append_assoc.
Qed.

(** An ad document without [<], or without [>] (a [<meta] tag that is not
    closed), has no CTA tag: whatever the parser, the link gets the default
    url [https://amp.dev] and the label of the default type [LEARN_MORE],
    and the call throws when the table has no such type. *)
Theorem setMetaCtaLink_without_tags (docStr : string) (ctaLink : link) :
  lacks "<" docStr \/ lacks ">" docStr ->
  resolveCta docStr = (Some "LEARN_MORE", Some "https://amp.dev") /\
  href (fst (setMetaCtaLink docStr ctaLink)) = Some "https://amp.dev" /\
  (forall label,
     CTA_TYPES !! "LEARN_MORE" = Some label -> label <> EmptyString ->
     setMetaCtaLink docStr ctaLink
       = (Link (Some "https://amp.dev") label, Normal tt)) /\
  (CTA_TYPES !! "LEARN_MORE" = None ->
   CTA_TYPES_inherited !! "LEARN_MORE" = None ->
   setMetaCtaLink docStr ctaLink
     = (Link (Some "https://amp.dev") (textContent ctaLink),
        Throw "Unknown CTA type LEARN_MORE")).
Proof.
  intros Hl.
  assert (Hr : resolveCta docStr = (Some "LEARN_MORE", Some "https://amp.dev")).
  { unfold resolveCta. by rewrite (match_global_needs_gt _ Hl). }
  unfold setMetaCtaLink. rewrite Hr. cbn [to_string].
  split_and!.
  - done.
  - by destruct (assertProperty _ _).
  - intros label E Hne. by rewrite (assertProperty_own _ _ label).
  - intros E Ei. by rewrite assertProperty_absent.
Qed.

(** A CTA tag without [content].  [getAttribute('content')] is then [null]:
    when the last [amp-cta-url] tag has none the link's [href] becomes the
    string [null]; when the last [amp-cta-type] tag has none the type read
    from the table is [null], and the call throws [Unknown CTA type null]
    unless the table has or inherits a property of that name. *)
Theorem cta_meta_without_content (docStr : string) (ctaLink : link) :
  let metas :=
    match match_global true metaCtaRe docStr with
    | Some ms => parseMetas (join newline ms)
    | None => []
    end in
  (forall pre m post,
     metas = pre ++ m :: post ->
     meta_name m = Some "amp-cta-url" ->
     meta_content m = None ->
     (forall m', m' ∈ post -> meta_name m' <> Some "amp-cta-url") ->
     href (fst (setMetaCtaLink docStr ctaLink)) = Some "null") /\
  (forall pre m post,
     metas = pre ++ m :: post ->
     meta_name m = Some "amp-cta-type" ->
     meta_content m = None ->
     (forall m', m' ∈ post -> meta_name m' <> Some "amp-cta-type") ->
     CTA_TYPES !! "null" = None ->
     CTA_TYPES_inherited !! "null" = None ->
     snd (setMetaCtaLink docStr ctaLink) = Throw "Unknown CTA type null" /\
     textContent (fst (setMetaCtaLink docStr ctaLink)) = textContent ctaLink).
Proof.
  intros metas.
  assert (Hr : resolveCta docStr
               = fold_left ctaStep metas (Some defaultCtaType, Some defaultCtaUrl)).
  { destruct (resolveCta_metas docStr) as [E|E]; [exact E |].
    by destruct (match_global_nonempty _ _ _ E). }
  split.
  - intros pre m post E Hm Hc Hpost.
    rewrite setMetaCtaLink_href, Hr, E.
    by rewrite (fold_ctaStep_url_last pre post m _ Hm Hpost), Hc.
  - intros pre m post E Hm Hc Hpost Hown Hinh. unfold setMetaCtaLink.
    assert (Ht : fst (resolveCta docStr) = None).
    { rewrite Hr, E. by rewrite (fold_ctaStep_type_last pre post m _ Hm Hpost). }
    destruct (resolveCta docStr) as [t u]. cbn [fst] in Ht. subst t.
    cbn [to_string]. by rewrite assertProperty_absent.
Qed.

End MetaTagProperties.

Lemma metaCtaRe_matches_single_tags_witness :
  Forall (fun m =>
            (exists pre post,
               "<head><meta charset='utf-8'><meta name='amp-cta-url' content='https://a.example/?q=a>b'></head>"
               = pre +:+ m +:+ post) /\
            exists inner, m = "<" +:+ inner +:+ ">" /\ lacks ">" inner)
    ["<meta name='amp-cta-url' content='https://a.example/?q=a>"].
Proof.
  by apply (metaCtaRe_matches_single_tags
              "<head><meta charset='utf-8'><meta name='amp-cta-url' content='https://a.example/?q=a>b'></head>").
Defined.

Lemma cta_meta_tag_is_matched_witness :
  exists ms m x,
    match_global true metaCtaRe
      "<HEAD><META NAME=AMP-CTA-TYPE CONTENT=SHOP></HEAD>" = Some ms /\
    m ∈ ms /\
    m = x +:+ "<META NAME=AMP-CTA-TYPE CONTENT=SHOP>" /\
    lacks ">" x.
Proof.
  apply (cta_meta_tag_is_matched
           "<HEAD><META NAME=AMP-CTA-TYPE CONTENT=SHOP></HEAD>"
           "<HEAD>" "</HEAD>" "<META" " " EmptyString "NAME=" EmptyString
           "AMP-CTA-" "TYPE" EmptyString " CONTENT=SHOP").
  - reflexivity.
  - reflexivity.
  - reflexivity.
  - apply lacks_nil.
  - reflexivity.
  - by left.
  - reflexivity.
  - by left.
  - by left.
  - by apply lacks_includes.
Defined.

Lemma setMetaCtaLink_without_tags_witness :
  setMetaCtaLink "<meta name='amp-cta-type' content='SHOP'" (Link None EmptyString)
  = (Link (Some "https://amp.dev") "Learn More", Normal tt).
Proof.
  apply (setMetaCtaLink_without_tags
           "<meta name='amp-cta-type' content='SHOP'" (Link None EmptyString)).
  - right. by apply lacks_includes.
  - reflexivity.
  - discriminate.
Defined.

Lemma cta_meta_without_content_witness :
  href (fst (setMetaCtaLink "<meta name='amp-cta-url'>" (Link None EmptyString)))
  = Some "null".
Proof.
  apply (proj1 (cta_meta_without_content "<meta name='amp-cta-url'>"
                  (Link None EmptyString))
           [] (Meta (Some "amp-cta-url") None) []).
  - reflexivity.
  - reflexivity.
  - reflexivity.
  - intros m' Hm'. by apply elem_of_nil in Hm'.
Defined.

(** ** What the constructor and the updates leave behind *)

Section WidgetProperties.
Context `{Browser}.

(** What one call leaves of the story document, on an idle widget. *)
Lemma call_story (c : call) (st : state) :
  idle st ->
  exists st',
    call_result c st = ([], st') /\
    idle st' /\
    storyDoc st'
      = match c with
        | UpdateInner _ _ => storyDoc st
        | UpdateOuter dirty _ _ => dirty
        end /\
    storyFrame st'
      = Some match c with
             | UpdateInner _ true => patchOuter (storyDoc st') "page-1"
             | _ => storyCssPatch (storyDoc st')
             end.
Proof.
  intros Hidle. destruct st as [sd se sf af cl lg].
  destruct c as [dirty sw|dirty dirtyInner sw].
  - rewrite updateInner_run by done. eexists. split; [reflexivity |].
    cbv zeta. destruct (setMetaCtaLink dirty cl) as [l [[]|msg]];
      destruct sw; split_and!; done.
  - rewrite updateOuter_run by done. eexists. split; [reflexivity |].
    cbv zeta. destruct (setMetaCtaLink dirtyInner cl) as [l [[]|msg]];
      split_and!; done.
Qed.

Lemma session_story (calls : list call) (st : state) :
  idle st ->
  exists st',
    session calls [] st = ([], st') /\
    idle st' /\
    storyDoc st'
      = fold_left (fun sd c =>
                     match c with
                     | UpdateInner _ _ => sd
                     | UpdateOuter dirty _ _ => dirty
                     end) calls (storyDoc st) /\
    (storyFrame st = Some (patchOuter (storyDoc st) "page-1") \/
     storyFrame st = Some (storyCssPatch (storyDoc st)) ->
     storyFrame st' = Some (patchOuter (storyDoc st') "page-1") \/
     storyFrame st' = Some (storyCssPatch (storyDoc st'))).
Proof.
  revert st. induction calls as [|c calls IH]; intros st Hst.
  - exists st. cbn [session]. by rewrite event_loop_nil.
  - destruct (call_story c st Hst) as (st1 & Hcall & Hst1 & Hdoc & Hframe).
    destruct (IH st1 Hst1) as (st2 & Hrest & Hst2 & Hdoc2 & Hframe2).
    exists st2. split_and!.
    + cbn [session]. rewrite event_loop_nil. unfold call_result in Hcall.
      destruct (invoke c [] st) as [q2 st2'].
      by rewrite (session_drain _ _ _ _ Hcall).
    + done.
    + by rewrite Hdoc2, Hdoc.
    + intros _. apply Hframe2. rewrite Hframe.
      destruct c as [d [|]|d di sw]; auto.
Qed.

(** The constructor uses up the template.  Whether it succeeds or throws,
    the element is left without [data-template]; it throws exactly on an
    element whose template is missing or empty, and then renders nothing;
    so a second widget built on the same element always throws
    [Expected [data-template] on ...]. *)
Theorem construct_consumes_template (el : element) :
  dataTemplate (fst (construct el)) = None /\
  elementString (fst (construct el)) = elementString el /\
  (truthy (dataTemplate el) = false ->
   construct el
   = (Element None (elementString el) (rendered el),
      Throw ("Expected [data-template] on " +:+ elementString el))) /\
  (truthy (dataTemplate el) = true ->
   rendered (fst (construct el)) = true /\
   exists q st, snd (construct el) = Normal (q, st)) /\
  snd (construct (fst (construct el)))
    = Throw ("Expected [data-template] on " +:+ elementString el).
Proof.
  unfold construct, getDataTemplate.
  destruct (dataTemplate el) as [[|c t]|]; cbn [assert truthy fst snd];
    try (split_and!; done).
  destruct (run_job _ _ _) as [st1 q]. cbn [fst snd dataTemplate elementString].
  split_and!; try done. eauto.
Qed.

(** A widget on which no update is called.  The constructor renders the
    wrapper and returns; its jobs then write the story document once,
    patched for the page [page-1], wait for it to load, and look up the
    nested iframe and the link.  Nothing is written to the ad iframe or to
    the link. *)
Theorem constructor_loads_story_once (el : element) :
  truthy (dataTemplate el) = true ->
  exists st,
    run_widget el [] = Normal ([], st) /\
    idle st /\
    storyFrame st = Some (patchOuter (storyDoc st) "page-1") /\
    adFrame st = None /\
    ctaLink st = Link None EmptyString /\
    history st
    = [ Rendered; Fulfilled (Method "constructor"); Attached; Loaded;
        WroteStory (patchOuter (storyDoc st) "page-1"); Loaded;
        Fulfilled (Chain StoryIframe);
        Selected "iframe"; Fulfilled (Chain AdIframe);
        Selected ".i-amphtml-story-ad-link"; Fulfilled (Chain StoryCtaLink) ].
Proof.
  intros Ht. unfold run_widget, construct, getDataTemplate.
  destruct (dataTemplate el) as [[|c t]|]; try discriminate. cbn [assert].
  set (sd := JsString.replace (String c t) "{{ adSandbox }}" defaultIframeSandbox).
  pose proof (constructor_run sd) as Hrun. cbv zeta in Hrun.
  destruct (run_job (Method "constructor") constructorBody
              (State sd [] None None (Link None EmptyString) [])) as [st1 q].
  cbn [fst snd session] in *. rewrite Hrun.
  eexists. split; [reflexivity |]. unfold idle. split_and!; reflexivity.
Qed.


(** [updateInner] with an ad document whose CTA is accepted, on an idle
    widget: the story document is written again (patched for [page-1] when
    switching context, with the CSS patch alone otherwise), the link gets
    the resolved [href] and the label, the ad iframe gets [patch dirty],
    and [this.storyDoc] stays as it was. *)
Theorem updateInner_effect (dirty : string) (sw : bool) (st : state) :
  idle st ->
  snd (setMetaCtaLink dirty (ctaLink st)) = Normal tt ->
  exists st',
    call_result (UpdateInner dirty sw) st = ([], st') /\
    adFrame st' = Some (patch dirty) /\
    ctaLink st' = fst (setMetaCtaLink dirty (ctaLink st)) /\
    href (ctaLink st') = Some (to_string (snd (resolveCta dirty))) /\
    storyDoc st' = storyDoc st /\
    storyFrame st'
      = Some (if sw then patchOuter (storyDoc st) "page-1"
              else storyCssPatch (storyDoc st)) /\
    history st'
    = history st
      ++ [ WroteStory (if sw then patchOuter (storyDoc st) "page-1"
                       else storyCssPatch (storyDoc st));
           Loaded; Selected "iframe";
           SetHref (to_string (snd (resolveCta dirty)));
           SetText (textContent (ctaLink st'));
           WroteAd (patch dirty);
           Fulfilled (Method "updateInner") ].
Proof.
  intros Hidle Hok. destruct st as [sd se sf af cl lg].
  rewrite updateInner_run by done. cbn [ctaLink storyDoc adFrame] in *.
  pose proof (setMetaCtaLink_href dirty cl) as Hhref.
  destruct (setMetaCtaLink dirty cl) as [l [[]|msg']]; [|done].
  cbn [fst snd] in *.
  eexists. split; [reflexivity |]. cbv zeta.
  cbn [adFrame storyDoc storyFrame ctaLink]. unfold history.
  cbn [log rev]. rewrite Hhref. cbn [to_string]. split_and!; try done.
  by rewrite <- !List.app_assoc.
Qed.


(** Between calls made one after the other the story iframe shows
    [this.storyDoc]: after any such calls the widget is idle,
    [this.storyDoc] is the document of the last [updateOuter] (the
    template with the sandbox filled in when there was none), and the
    story iframe holds that document under [patchOuter] for [page-1] or
    under [storyCssPatch]. *)
Theorem session_story_in_sync (el : element) (template : string)
    (calls : list call) :
  dataTemplate el = Some template ->
  template <> EmptyString ->
  exists st,
    run_widget el calls = Normal ([], st) /\
    idle st /\
    storyDoc st
      = fold_left (fun sd c =>
                     match c with
                     | UpdateInner _ _ => sd
                     | UpdateOuter dirty _ _ => dirty
                     end) calls
          (JsString.replace template "{{ adSandbox }}" defaultIframeSandbox) /\
    (storyFrame st = Some (patchOuter (storyDoc st) "page-1") \/
     storyFrame st = Some (storyCssPatch (storyDoc st))).
Proof.
  intros Ht Hne. unfold run_widget, construct, getDataTemplate. rewrite Ht.
  rewrite (assert_Normal _ _ template) by done.
  set (sd := JsString.replace template "{{ adSandbox }}" defaultIframeSandbox).
  pose proof (constructor_run sd) as Hrun. cbv zeta in Hrun.
  destruct (run_job (Method "constructor") constructorBody
              (State sd [] None None (Link None EmptyString) [])) as [st1 q].
  cbn [fst snd] in Hrun.
  rewrite (session_drain _ _ _ _ Hrun).
  match type of Hrun with _ = (_, ?s) =>
    destruct (session_story calls s) as (st & Hs & Hidle & Hdoc & Hframe)
  end.
  { unfold idle. split_and!; reflexivity. }
  exists st. rewrite Hs. split_and!; [done | done | exact Hdoc |].
  apply Hframe. by left.
Qed.

(** [updateInner] called as soon as the constructor has returned, before
    the story iframe is attached or loaded, is not lost: it waits for
    [this.storyIframe_] and then runs to its end, the ad document written
    when its CTA is accepted. *)
Theorem early_update_is_deferred (el el' : element) (q0 : list task)
    (st0 : state) (dirty : string) (sw : bool) :
  construct el = (el', Normal (q0, st0)) ->
  exists st,
    execute [Call (UpdateInner dirty sw); Turns fuel] q0 st0 = ([], st) /\
    idle st /\
    storyDoc st = storyDoc st0 /\
    storyFrame st
      = Some (if sw then patchOuter (storyDoc st0) "page-1"
              else storyCssPatch (storyDoc st0)) /\
    ctaLink st = fst (setMetaCtaLink dirty (Link None EmptyString)) /\
    match snd (setMetaCtaLink dirty (Link None EmptyString)) with
    | Normal _ =>
        adFrame st = Some (patch dirty) /\
        exists l, log st = Fulfilled (Method "updateInner")
                           :: WroteAd (patch dirty) :: l
    | Throw msg =>
        adFrame st = None /\
        exists l, log st = Rejected (Method "updateInner") msg :: l
    end.
Proof.
  unfold construct, getDataTemplate.
  destruct (assert (dataTemplate el) _) as [template|msg]; [|done].
  set (sd := JsString.replace template "{{ adSandbox }}" defaultIframeSandbox).
  pose proof (early_updateInner_run dirty sw sd) as Hrun. cbv zeta in Hrun.
  destruct (run_job (Method "constructor") constructorBody
              (State sd [] None None (Link None EmptyString) [])) as [st1 q] eqn:E.
  assert (Hsd : storyDoc st1 = sd).
  { revert E. unfold constructorBody, storyIframeChain.
    cbv [run_job app fst snd awaitSelect say emit settle storyDoc settled
         storyFrame adFrame ctaLink log].
    by intros [= <- _]. }
  intros [= _ <- <-]. cbn [fst snd] in Hrun.
  cbn [execute]. unfold invoke. cbn [call_name call_body].
  destruct (run_job (Method "updateInner") (updateInner dirty sw) st1)
    as [st2 q2]. cbn [fst snd] in Hrun. rewrite Hrun. rewrite Hsd.
  eexists. split; [reflexivity |]. 
  destruct (setMetaCtaLink dirty (Link None EmptyString)) as [l [[]|msg]];
    cbn [fst snd storyDoc storyFrame adFrame ctaLink log];
    split_and!; try done; eauto.
Qed.

End WidgetProperties.

Lemma construct_consumes_template_witness :
  snd (construct (fst (construct Sample.host)))
  = Throw "Expected [data-template] on [object HTMLDivElement]".
Proof.
  exact (proj2 (proj2 (proj2 (proj2 (construct_consumes_template Sample.host))))).
Defined.

Lemma constructor_loads_story_once_witness :
  exists st, run_widget Sample.host [] = Normal ([], st) /\ adFrame st = None.
Proof.
  destruct (constructor_loads_story_once Sample.host eq_refl)
    as (st & Hrun & _ & _ & Had & _).
  by exists st.
Defined.


Lemma updateInner_effect_witness :
  exists st',
    call_result (UpdateInner "<meta name='amp-cta-type' content='SHOP'>" true)
      (snd (Sample.run []))
    = ([], st') /\
    ctaLink st' = Link (Some "https://amp.dev") "Shop Now".
Proof.
  destruct (updateInner_effect "<meta name='amp-cta-type' content='SHOP'>"
              true (snd (Sample.run [])))
    as (st' & Hrun & _ & Hlink & _).
  - vm_compute. done.
  - vm_compute. reflexivity.
  - exists st'. split; [exact Hrun |]. rewrite Hlink.
    vm_compute. reflexivity.
Defined.


Lemma session_story_in_sync_witness :
  exists st,
    run_widget Sample.host
      [ UpdateOuter "<html><head></head><body>One</body></html>" "<p>Ad</p>" true;
        UpdateInner "<p>Ad 2</p>" false;
        UpdateOuter "<html><head></head><body>Two</body></html>" "<p>Ad</p>" false;
        UpdateInner "<p>Ad 3</p>" true ]
    = Normal ([], st) /\
    storyDoc st = "<html><head></head><body>Two</body></html>".
Proof.
  destruct (session_story_in_sync Sample.host
              "<html><head></head><body><iframe sandbox='{{ adSandbox }}'></iframe></body></html>"
              [ UpdateOuter "<html><head></head><body>One</body></html>" "<p>Ad</p>" true;
                UpdateInner "<p>Ad 2</p>" false;
                UpdateOuter "<html><head></head><body>Two</body></html>" "<p>Ad</p>" false;
                UpdateInner "<p>Ad 3</p>" true ] eq_refl)
    as (st & Hrun & _ & Hdoc & _).
  - discriminate.
  - exists st. split; [exact Hrun |]. rewrite Hdoc. reflexivity.
Defined.

Lemma early_update_is_deferred_witness :
  exists st,
    execute [Call (UpdateInner "<p>Ad</p>" false); Turns fuel]
      (fst Sample.started) (snd Sample.started)
    = ([], st) /\
    idle st.
Proof.
  destruct (early_update_is_deferred Sample.host
              (fst (construct Sample.host)) (fst Sample.started)
              (snd Sample.started) "<p>Ad</p>" false)
    as (st & Hrun & Hidle & _).
  - vm_compute. reflexivity.
  - by exists st.
Defined.

(** ** The build script, failing *)

Module BuildProperties.
Import Build BuildFacts.

Section Properties.
Context {bundle : Type} `{Tools bundle}.

(** A failed bundling stops [main], whatever [PROD] is: when rollup fails,
    or the bundle's write fails, [main] fails with that error, announces no
    minifying, reads and writes no file. *)
Theorem main_fails_with_the_bundler (env : gmap string string) (w : world) :
  (forall msg,
     rollup inputConfig = Throw msg ->
     main env w
     = (World (files w) (Rollup inputConfig :: Step "🚧 Building" :: log w),
        Throw msg)) /\
  (forall b msg,
     rollup inputConfig = Normal b ->
     bundle_code b (OutputOptions "dist/app.js" "iife" "ampStoryAdPreview")
       = Throw msg ->
     main env w
     = (World (files w)
          (BundleWrite "dist/app.js" :: Rollup inputConfig
           :: Step "🚧 Building" :: log w),
        Throw msg)).
Proof.
  split.
  - intros msg E. unfold main, bind. by rewrite (build_rollup_fails w msg E).
  - intros b msg E Ec. unfold main, bind.
    by rewrite (build_write_fails w b msg E Ec).
Qed.


End Properties.

Lemma main_fails_with_the_bundler_witness :
  main (H := failing_tools) {[ "PROD" := "1" ]} (World ∅ [])
  = (World ∅ [Rollup inputConfig; Step "🚧 Building"],
     Throw "Could not resolve entry module (src/bundles/app.js).").
Proof.
  exact (proj1 (main_fails_with_the_bundler (H := failing_tools)
                  {[ "PROD" := "1" ]} (World ∅ []))
           "Could not resolve entry module (src/bundles/app.js)." eq_refl).
Defined.


End BuildProperties.
